(** * SceneUtil::LightManager — per-frame light registry, selection and
    composite-state cache (components/sceneutil/lightmanager.cpp)

  The development embeds the C++ of lightmanager.cpp shallowly:
  - objects that the code reaches through pointers live in explicit stores
    (finite maps from addresses to values) that are passed in and out;
  - [int], [unsigned int] and [size_t] values are integers of [Z] with the
    conversions between them written out;
  - undefined behaviour (dangling pointer, out-of-range [operator[]]) and
    the one C++ exception of the file are results of their own;
  - what belongs to OpenSceneGraph and Boost (matrices, bounding spheres,
    cameras, [hash_combine]) is an interface the development is
    parametrised over. *)

From stdpp Require Import gmap strings list sorting finite.

Set Warnings "-register-all".

(** ** Machine integers *)

Module Ints.

(** [static_cast<int>] of an integer: wrap-around to 32 bits, signed. *)
Definition to_int (z : Z) : Z := ((z + 2 ^ 31) `mod` 2 ^ 32 - 2 ^ 31)%Z.

(** [static_cast<size_t>] of an integer: wrap-around to 64 bits. *)
Definition to_size_t (z : Z) : Z := (z `mod` 2 ^ 64)%Z.

(** The largest number of elements whose indices all fit an [int]. *)
Definition int_range : Z := (2 ^ 31)%Z.

End Ints.

(** ** Results of a call *)

(** A call returns normally, throws [std::runtime_error(what)], or has
  undefined behaviour. *)
Inductive result (A : Type) : Type :=
| Ok (a : A)
| Throw (what : string)
| Undefined.
Arguments Ok {A} a.
Arguments Throw {A} what.
Arguments Undefined {A}.

Definition result_bind {A B : Type} (f : A → result B) (r : result A) : result B :=
match r with
| Ok a => f a
| Throw w => Throw w
| Undefined => Undefined
end.

#[global] Instance result_mret : MRet result := @Ok.
#[global] Instance result_mbind : MBind result := @result_bind.

(** [*p] for a pointer [p] into a store of live objects. *)
Definition deref {A : Type} (store : gmap nat A) (p : nat) : result A :=
match store !! p with
| Some a => Ok a
| None => Undefined
end.

(** [v[i]] of a [std::vector], the index converted to [size_t]. *)
Definition vector_at {A : Type} (v : list A) (i : Z) : result A :=
if decide (0 ≤ i)%Z then
  match v !! Z.to_nat i with
  | Some a => Ok a
  | None => Undefined
  end
else Undefined.

(** Addresses of scene-graph nodes ([osg::Node*], [LightSource*],
  [LightManager*]) and of state sets ([osg::ref_ptr<osg::StateSet>]). *)
Abbreviation NodePtr := nat (only parsing).
Abbreviation StateSetPtr := nat (only parsing).

(** ** What the file uses of OpenSceneGraph and Boost *)

Class Osg := {
(** [osg::Matrix], [osg::Vec4], [osg::BoundingSphere], [osg::Camera],
    [float], and the fields of an [osg::Light] other than its number and
    its position. *)
Matrix : Type;
Vec4 : Type;
BoundingSphere : Type;
Camera : Type;
float : Type;
LightParams : Type;
(** The transforms stored in the nodes of the scene at some moment. *)
Transforms : Type;
(** [a * b] *)
matrix_mult : Matrix → Matrix → Matrix;
(** [m.preMult(v)] *)
matrix_preMult : Matrix → Vec4 → Vec4;
(** [osg::BoundingSphere(osg::Vec3f(0,0,0), radius)] *)
sphere_at_origin : float → BoundingSphere;
(** [osg::BoundingSphere()] *)
sphere_default : BoundingSphere;
(** [transformBoundingSphere(matrix, sphere)] of components/sceneutil/util *)
transformBoundingSphere : Matrix → BoundingSphere → BoundingSphere;
(** [a.intersects(b)] *)
sphere_intersects : BoundingSphere → BoundingSphere → bool;
(** [cam->getViewMatrix()] *)
camera_getViewMatrix : Camera → Matrix;
(** [osg::computeLocalToWorld(nodePath)] *)
computeLocalToWorld : Transforms → list NodePtr → Matrix;
(** [boost::hash_combine(seed, v)] for an [int] [v]: the new seed. *)
hash_combine : Z → Z → Z;
}.

(** The part of the scene below a node, as a traversal of all children sees
    it: an [osg::Geode], or any other node with its children. A node with
    several parents occurs once for every path that leads to it. *)
Inductive SceneGraph : Type :=
| Geode (self : NodePtr)
| Group (self : NodePtr) (children : list SceneGraph).

(** [GL_LIGHT0] *)
Definition GL_LIGHT0 : Z := 16384%Z.

Section Model.
Context `{Osg}.

(** ** Data model *)

(** [osg::Light]; [light_num] is [_lightnum], the slot of the light. *)
Record Light := {
  light_num : Z;
  light_position : Vec4;
  light_params : LightParams;
}.

(** Modelled from the spec: [SceneUtil::LightSource] is declared in
    lightmanager.hpp, which is missing; a light entity exposes its radius
    of influence ([getRadius()]) and its light ([getLight()]). *)
Record LightSource := {
  ls_radius : float;
  ls_light : Light;
}.

(** [LightManager::LightSourceTransform] *)
Record LightSourceTransform := {
  mLightSource : NodePtr;
  mWorldMatrix : Matrix;
  mViewBound : BoundingSphere;
}.

(** [osg::StateSet], as far as this file fills it: the attributes of type
    LIGHT by member (the light number), and the modes by GL mode. *)
Record StateSet := {
  attributeList : gmap Z Light;
  modeList : gmap Z bool;
}.

(** [SceneUtil::LightManager]; [mStateSetCache] is a
    [std::map<size_t, osg::ref_ptr<osg::StateSet>>]. *)
Record LightManager := {
  mLights : list LightSourceTransform;
  mLightsInViewSpace : bool;
  mDecorated : bool;
  mStateSetCache : gmap Z StateSetPtr;
}.

(** [SceneUtil::CullCallback] *)
Record CullCallback := {
  cull_mLightManager : option NodePtr;
}.

(** [SceneUtil::CollectLightCallback] *)
Record CollectLightCallback := {
  collect_mLightManager : option NodePtr;
}.

(** What a cull callback does around [traverse(node, nv)]. *)
Inductive CullAction : Type :=
| TraverseOnly
| PushTraversePop (stateset : StateSetPtr).

(** ** Constructors *)

(** [LightManager::LightManager()] *)
Definition LightManager_new : LightManager :=
{| mLights := []; mLightsInViewSpace := false; mDecorated := false;
   mStateSetCache := ∅ |}.

(** [LightManager::LightManager(const LightManager& copy, copyop)] *)
Definition LightManager_copy (copy : LightManager) : LightManager :=
{| mLights := []; mLightsInViewSpace := false; mDecorated := mDecorated copy;
   mStateSetCache := ∅ |}.

(** [CollectLightCallback::CollectLightCallback()], and the copy constructor,
    which does not copy the pointer either. *)
Definition CollectLightCallback_new : CollectLightCallback :=
{| collect_mLightManager := None |}.

(** [CullCallback::CullCallback(LightManager* lightManager)] *)
Definition CullCallback_new (lightManager : NodePtr) : CullCallback :=
{| cull_mLightManager := Some lightManager |}.

(** ** The decoration pass *)

(** [parent->addCullCallback(cb)]: the callback goes to the end of the
    parent's chain of cull callbacks. *)
Definition addCullCallback (parent : NodePtr) (cb : CullCallback)
  (callbacks : gmap NodePtr (list CullCallback)) : gmap NodePtr (list CullCallback) :=
<[parent := default [] (callbacks !! parent) ++ [cb]]> callbacks.

(** [AttachCullCallbackVisitor::apply(osg::Geode&)]; [parents geode] is the
    parent list of the geode. *)
Definition apply_Geode (mLightManager : NodePtr) (parents : NodePtr → list NodePtr)
  (geode : NodePtr) (callbacks : gmap NodePtr (list CullCallback))
  : gmap NodePtr (list CullCallback) :=
match parents geode with
| [] => callbacks
| parent :: _ => addCullCallback parent (CullCallback_new mLightManager) callbacks
end.

(** [node.accept(visitor)] for an [AttachCullCallbackVisitor], which
    traverses all children and overrides [apply] for geodes only. *)
Fixpoint accept (mLightManager : NodePtr) (parents : NodePtr → list NodePtr)
  (node : SceneGraph) (callbacks : gmap NodePtr (list CullCallback))
  : gmap NodePtr (list CullCallback) :=
match node with
| Geode geode => apply_Geode mLightManager parents geode callbacks
| Group _ children =>
    foldl (λ cbs child, accept mLightManager parents child cbs) callbacks children
end.

(** [LightManager::decorateGeodes()]; [graph] is the scene below the
    manager [this], the manager included. *)
Definition decorateGeodes (this : NodePtr) (parents : NodePtr → list NodePtr)
  (graph : SceneGraph) (callbacks : gmap NodePtr (list CullCallback))
  : gmap NodePtr (list CullCallback) :=
accept this parents graph callbacks.

(** ** The registry *)

(** [LightManager::update()]; [graph] is the scene below the manager [this]
    at the time of the call, and [parents] gives the parent lists then. *)
Definition update (this : NodePtr) (parents : NodePtr → list NodePtr)
  (graph : SceneGraph) (lm : LightManager)
  (callbacks : gmap NodePtr (list CullCallback))
  : LightManager * gmap NodePtr (list CullCallback) :=
let lm := {| mLights := []; mLightsInViewSpace := false;
             mDecorated := mDecorated lm; mStateSetCache := ∅ |} in
if negb (mDecorated lm) then
  let callbacks := decorateGeodes this parents graph callbacks in
  ({| mLights := mLights lm; mLightsInViewSpace := mLightsInViewSpace lm;
      mDecorated := true; mStateSetCache := mStateSetCache lm |}, callbacks)
else (lm, callbacks).

(** [LightManager::addLight(lightSource, worldMat)] *)
Definition addLight (lightSource : NodePtr) (worldMat : Matrix) (lm : LightManager)
  : LightManager :=
let l := {| mLightSource := lightSource; mWorldMatrix := worldMat;
            mViewBound := sphere_default |} in
{| mLights := mLights lm ++ [l]; mLightsInViewSpace := mLightsInViewSpace lm;
   mDecorated := mDecorated lm; mStateSetCache := mStateSetCache lm |}.

(** [LightManager::getLights()] *)
Definition getLights (lm : LightManager) : list LightSourceTransform := mLights lm.

(** The body of the loop of [prepareForCamera], for one record. *)
Definition viewSpaceBound (sources : gmap NodePtr LightSource) (cam : Camera)
  (l : LightSourceTransform) : result LightSourceTransform :=
let worldViewMat := matrix_mult (mWorldMatrix l) (camera_getViewMatrix cam) in
lightSource ← deref sources (mLightSource l);
mret {| mLightSource := mLightSource l; mWorldMatrix := mWorldMatrix l;
        mViewBound := transformBoundingSphere worldViewMat
                        (sphere_at_origin (ls_radius lightSource)) |}.

(** The loop of [prepareForCamera] over [mLights]. *)
Fixpoint viewSpaceBounds (sources : gmap NodePtr LightSource) (cam : Camera)
  (lights : list LightSourceTransform) : result (list LightSourceTransform) :=
match lights with
| [] => mret []
| l :: rest =>
    l' ← viewSpaceBound sources cam l;
    rest' ← viewSpaceBounds sources cam rest;
    mret (l' :: rest')
end.

(** [LightManager::prepareForCamera(cam)] *)
Definition prepareForCamera (sources : gmap NodePtr LightSource) (cam : Camera)
  (lm : LightManager) : result LightManager :=
if mLightsInViewSpace lm then mret lm
else
  lights ← viewSpaceBounds sources cam (mLights lm);
  mret {| mLights := lights; mLightsInViewSpace := true;
          mDecorated := mDecorated lm; mStateSetCache := mStateSetCache lm |}.

(** The first loop of [getLightListStateSet]: the cache key. *)
Definition hash_LightList (lightList : list Z) : Z :=
foldl hash_combine 0%Z lightList.

(** [stateset->setAttribute(light, ON)] *)
Definition setAttribute (light : Light) (stateset : StateSet) : StateSet :=
{| attributeList := <[light_num light := light]> (attributeList stateset);
   modeList := modeList stateset |}.

(** [stateset->setAssociatedModes(light, ON)] *)
Definition setAssociatedModes (light : Light) (stateset : StateSet) : StateSet :=
{| attributeList := attributeList stateset;
   modeList := <[(GL_LIGHT0 + light_num light)%Z := true]> (modeList stateset) |}.

(** The light that one iteration of the second loop puts in the state set:
    a copy of [light] with its position and its number set. *)
Definition cloneLight (l : LightSourceTransform) (light : Light) (i : Z) : Light :=
{| light_num := Ints.to_int i;
   light_position := matrix_preMult (mWorldMatrix l) (light_position light);
   light_params := light_params light |}.

(** The second loop of [getLightListStateSet], from counter [i] on. *)
Fixpoint fillStateSet (sources : gmap NodePtr LightSource)
  (lights : list LightSourceTransform) (i : Z) (lightList : list Z)
  (stateset : StateSet) : result StateSet :=
match lightList with
| [] => mret stateset
| lightIndex :: rest =>
    l ← vector_at lights lightIndex;
    lightSource ← deref sources (mLightSource l);
    let clonedLight := cloneLight l (ls_light lightSource) i in
    fillStateSet sources lights (i + 1)%Z rest
      (setAssociatedModes clonedLight (setAttribute clonedLight stateset))
end.

(** [new osg::StateSet] *)
Definition StateSet_new : StateSet := {| attributeList := ∅; modeList := ∅ |}.

(** [LightManager::getLightListStateSet(lightList)]. [heap] holds the state
    sets allocated so far, a state set's address being its position; nothing
    is ever removed from it, so that an address names one allocation. *)
Definition getLightListStateSet (sources : gmap NodePtr LightSource)
  (lightList : list Z) (lm : LightManager) (heap : list StateSet)
  : result (StateSetPtr * LightManager * list StateSet) :=
let hash := hash_LightList lightList in
match mStateSetCache lm !! hash with
| Some found => mret (found, lm, heap)
| None =>
    stateset ← fillStateSet sources (mLights lm) 0%Z lightList StateSet_new;
    let ptr := length heap in
    mret (ptr,
          {| mLights := mLights lm; mLightsInViewSpace := mLightsInViewSpace lm;
             mDecorated := mDecorated lm;
             mStateSetCache := <[hash := ptr]> (mStateSetCache lm) |},
          heap ++ [stateset])
end.

(** ** The selection (cull) hook *)

(** The loop that collects the lights whose view-space bound intersects
    [nodeBound], from counter [i] on; [push_back(i)] converts the counter to
    [int]. *)
Fixpoint collectLights (nodeBound : BoundingSphere) (i : Z)
  (lights : list LightSourceTransform) : list Z :=
match lights with
| [] => []
| l :: rest =>
    if sphere_intersects (mViewBound l) nodeBound
    then Ints.to_int i :: collectLights nodeBound (i + 1)%Z rest
    else collectLights nodeBound (i + 1)%Z rest
end.

(** [while (lightList.size() > 8) lightList.pop_back();] run for at most
    [fuel] iterations. *)
Fixpoint popWhileOver8 (fuel : nat) (lightList : list Z) : list Z :=
match fuel with
| O => lightList
| S fuel' =>
    if decide (8 < length lightList)
    then popWhileOver8 fuel' (removelast lightList)
    else lightList
end.

(** The truncation of the light list: every iteration removes an element,
    so [length lightList] iterations are enough. *)
Definition truncateLights (lightList : list Z) : list Z :=
popWhileOver8 (length lightList) lightList.

(** [CullCallback::operator()(node, nv)]: [cam] is the current camera of the
    cull visitor, [modelView] its model-view matrix and [nodeBound] the bound
    of [node]. *)
Definition CullCallback_call (cb : CullCallback)
  (sources : gmap NodePtr LightSource) (cam : Camera) (modelView : Matrix)
  (nodeBound : BoundingSphere) (managers : gmap NodePtr LightManager)
  (heap : list StateSet)
  : result (CullAction * gmap NodePtr LightManager * list StateSet) :=
this ← match cull_mLightManager cb with
       | Some this => mret this
       | None => Undefined
       end;
lm ← deref managers this;
lm ← prepareForCamera sources cam lm;
let lights := getLights lm in
if decide (length lights ≠ 0) then
  let nodeBound := transformBoundingSphere modelView nodeBound in
  let lightList := collectLights nodeBound 0%Z lights in
  if decide (lightList = []) then
    mret (TraverseOnly, <[this := lm]> managers, heap)
  else
    let lightList := truncateLights lightList in
    '(stateset, lm, heap) ← getLightListStateSet sources lightList lm heap;
    mret (PushTraversePop stateset, <[this := lm]> managers, heap)
else mret (TraverseOnly, <[this := lm]> managers, heap).

(** ** The collection hook *)

(** The loop over the node path: the first node of the path, from the root
    on, that [dynamic_cast<LightManager*>] accepts. [managers] holds the live
    objects of class [LightManager]. *)
Fixpoint findLightManager (managers : gmap NodePtr LightManager)
  (nodePath : list NodePtr) : option NodePtr :=
match nodePath with
| [] => None
| n :: rest =>
    match managers !! n with
    | Some _ => Some n
    | None => findLightManager managers rest
    end
end.

(** [CollectLightCallback::operator()(node, nv)]: [nodePath] is the node path
    of the visitor, from the root to [node]. *)
Definition CollectLightCallback_call (cb : CollectLightCallback) (node : NodePtr)
  (transforms : Transforms) (nodePath : list NodePtr)
  (managers : gmap NodePtr LightManager)
  : result (CollectLightCallback * gmap NodePtr LightManager) :=
cb ← match collect_mLightManager cb with
     | Some _ => mret cb
     | None =>
         match findLightManager managers nodePath with
         | Some lightManager => mret {| collect_mLightManager := Some lightManager |}
         | None => Throw "can't find parent LightManager"
         end
     end;
this ← match collect_mLightManager cb with
       | Some this => mret this
       | None => Undefined
       end;
lm ← deref managers this;
mret (cb, <[this := addLight node (computeLocalToWorld transforms nodePath) lm]> managers).

(** [LightManagerUpdateCallback::operator()(node, nv)] *)
Definition LightManagerUpdateCallback_call (node : NodePtr)
  (parents : NodePtr → list NodePtr) (graph : SceneGraph)
  (managers : gmap NodePtr LightManager)
  (callbacks : gmap NodePtr (list CullCallback))
  : result (gmap NodePtr LightManager * gmap NodePtr (list CullCallback)) :=
lightManager ← deref managers node;
let '(lightManager, callbacks) := update node parents graph lightManager callbacks in
mret (<[node := lightManager]> managers, callbacks).

(** ** Frames *)

(** The calls that a host makes to a registry between two resets. *)
Inductive FrameOp : Type :=
| OpAddLight (lightSource : NodePtr) (worldMat : Matrix)
| OpPrepareForCamera (cam : Camera)
| OpGetLightListStateSet (lightList : list Z).

Definition runFrameOp (sources : gmap NodePtr LightSource) (op : FrameOp)
  (st : LightManager * list StateSet) : result (LightManager * list StateSet) :=
match op with
| OpAddLight lightSource worldMat => mret (addLight lightSource worldMat st.1, st.2)
| OpPrepareForCamera cam =>
    lm ← prepareForCamera sources cam st.1; mret (lm, st.2)
| OpGetLightListStateSet lightList =>
    '(_, lm, heap) ← getLightListStateSet sources lightList st.1 st.2;
    mret (lm, heap)
end.

Fixpoint runFrameOps (sources : gmap NodePtr LightSource) (ops : list FrameOp)
  (st : LightManager * list StateSet) : result (LightManager * list StateSet) :=
match ops with
| [] => mret st
| op :: rest => st' ← runFrameOp sources op st; runFrameOps sources rest st'
end.

(** [addLight] called once for every element of [calls], in order. *)
Definition addLights (calls : list (NodePtr * Matrix)) (lm : LightManager)
  : LightManager :=
foldl (λ lm call, addLight call.1 call.2 lm) lm calls.

(** One [update()] per frame, the scene of each frame given by its parent
    lists and its graph below the manager. *)
Fixpoint updateFrames (this : NodePtr)
  (frames : list ((NodePtr → list NodePtr) * SceneGraph)) (lm : LightManager)
  (callbacks : gmap NodePtr (list CullCallback))
  : LightManager * gmap NodePtr (list CullCallback) :=
match frames with
| [] => (lm, callbacks)
| (parents, graph) :: rest =>
    let '(lm', callbacks') := update this parents graph lm callbacks in
    updateFrames this rest lm' callbacks'
end.

(** ** Vocabulary of the properties *)

(** The geodes of a graph, in the order a traversal meets them. *)
Fixpoint geodes (node : SceneGraph) : list NodePtr :=
match node with
| Geode geode => [geode]
| Group _ children => flat_map geodes children
end.

(** The geodes of a graph whose first parent is [parent]. *)
Definition geodesBelow (parents : NodePtr → list NodePtr) (parent : NodePtr)
  (node : SceneGraph) : list NodePtr :=
filter (λ geode, head (parents geode) = Some parent) (geodes node).

(** [lightList] indexes [lights], and the light sources of the records it
    selects are live. *)
Definition validIndex (sources : gmap NodePtr LightSource)
  (lights : list LightSourceTransform) (lightIndex : Z) : bool :=
match vector_at lights lightIndex with
| Ok l => bool_decide (is_Some (sources !! mLightSource l))
| _ => false
end.

Definition validLightList (sources : gmap NodePtr LightSource)
  (lights : list LightSourceTransform) (lightList : list Z) : bool :=
forallb (validIndex sources lights) lightList.

(** The light sources of all records are live. *)
Definition liveSources (sources : gmap NodePtr LightSource)
  (lights : list LightSourceTransform) : bool :=
forallb (λ l, bool_decide (is_Some (sources !! mLightSource l))) lights.

(** The light registered as number [i] exists and its view-space bound
    intersects [nodeBound]. *)
Definition intersectsAt (nodeBound : BoundingSphere)
  (lights : list LightSourceTransform) (i : Z) : bool :=
bool_decide (0 ≤ i)%Z &&
match lights !! Z.to_nat i with
| Some l => sphere_intersects (mViewBound l) nodeBound
| None => false
end.

(** The indices of the lights whose view-space bound intersects [nodeBound],
    in registration order. *)
Definition intersectingLights (nodeBound : BoundingSphere)
  (lights : list LightSourceTransform) : list Z :=
filter (λ i, intersectsAt nodeBound lights i = true)
       (seqZ 0 (Z.of_nat (length lights))).

(** The cache maps different keys to different state sets, all of them
    allocated. *)
Definition cacheWf (lm : LightManager) (heap : list StateSet) : Prop :=
(∀ key ptr, mStateSetCache lm !! key = Some ptr → ptr < length heap) ∧
(∀ key1 key2 ptr, mStateSetCache lm !! key1 = Some ptr →
                  mStateSetCache lm !! key2 = Some ptr → key1 = key2).

(** The registrations among the calls of a frame, in call order, and what a
    record keeps of its registration. *)
Definition registrations (ops : list FrameOp) : list (NodePtr * Matrix) :=
flat_map (λ op, match op with
                | OpAddLight lightSource worldMat => [(lightSource, worldMat)]
                | _ => []
                end) ops.

Definition registration (l : LightSourceTransform) : NodePtr * Matrix :=
(mLightSource l, mWorldMatrix l).

(** All the sequences of [n] indices taken from [indices]. *)
Fixpoint sequences (n : nat) (indices : list Z) : list (list Z) :=
match n with
| O => [[]]
| S n' => flat_map (λ i, (i ::.) <$> sequences n' indices) indices
end.

(** What the calls of a frame keep of a registry and of the heap: the
    entries of the cache, the state sets allocated, the well-formedness of
    the cache, the decoration flag, and the view-space flag once it is set. *)
Definition frameExtends (st st' : LightManager * list StateSet) : Prop :=
(∀ key ptr, mStateSetCache st.1 !! key = Some ptr →
            mStateSetCache st'.1 !! key = Some ptr) ∧
st.2 `prefix_of` st'.2 ∧
(cacheWf st.1 st.2 → cacheWf st'.1 st'.2) ∧
mDecorated st'.1 = mDecorated st.1 ∧
(mLightsInViewSpace st.1 = true → mLightsInViewSpace st'.1 = true).

(** Two calls of [getLightListStateSet] in a row: the two state sets. *)
Definition getLightListStateSetTwice (sources : gmap NodePtr LightSource)
  (lightList1 lightList2 : list Z) (lm : LightManager) (heap : list StateSet)
  : result (StateSetPtr * StateSetPtr) :=
'(stateset1, lm, heap) ← getLightListStateSet sources lightList1 lm heap;
'(stateset2, _, _) ← getLightListStateSet sources lightList2 lm heap;
mret (stateset1, stateset2).

(** The first, respectively the last, node of a path that is a live
    [LightManager]: the outermost and the nearest registry that encloses the
    last node of the path. *)
Definition outermostManager (managers : gmap NodePtr LightManager)
  (nodePath : list NodePtr) (m : NodePtr) : Prop :=
∃ above below, nodePath = above ++ m :: below ∧ is_Some (managers !! m) ∧
               ∀ n, n ∈ above → managers !! n = None.

Definition nearestManager (managers : gmap NodePtr LightManager)
  (nodePath : list NodePtr) (m : NodePtr) : Prop :=
∃ above below, nodePath = above ++ m :: below ∧ is_Some (managers !! m) ∧
               ∀ n, n ∈ below → managers !! n = None.

(** The registry that a run of the collection hook addresses: the cached one
    if there is one, else the outermost one of the path. *)
Definition addressedManager (cb : CollectLightCallback)
  (managers : gmap NodePtr LightManager) (nodePath : list NodePtr)
  (m : NodePtr) : Prop :=
match collect_mLightManager cb with
| Some cached => cached = m
| None => outermostManager managers nodePath m
end.

(** ** Runs of the collection hook *)

(** One callback object run once for every element of [runs], each run with
    the light entity it is attached to, the transforms of the scene and the
    node path of the visitor at that moment. *)
Fixpoint collectRuns (cb : CollectLightCallback)
  (runs : list (NodePtr * Transforms * list NodePtr))
  (managers : gmap NodePtr LightManager)
  : result (CollectLightCallback * gmap NodePtr LightManager) :=
match runs with
| [] => mret (cb, managers)
| (node, transforms, nodePath) :: rest =>
    '(cb', managers') ← CollectLightCallback_call cb node transforms nodePath managers;
    collectRuns cb' rest managers'
end.

(** The registrations that the runs make: the entity and the world matrix of
    its node path. *)
Definition runRegistrations (runs : list (NodePtr * Transforms * list NodePtr))
  : list (NodePtr * Matrix) :=
(λ run, (run.1.1, computeLocalToWorld run.1.2 run.2)) <$> runs.

(** ** The light state attribute *)

(** [osg::State], as far as [LightStateAttribute::apply] uses it: the
    model-view matrix in effect, the initial view matrix, the lights handed
    to the pipeline, by light number, each with the model-view matrix that
    was in effect then, and the global default attributes by light number. *)
Record State := {
  modelViewMatrix : Matrix;
  initialViewMatrix : Matrix;
  appliedLights : gmap Z (Light * Matrix);
  globalDefaultAttributes : gmap Z Light;
}.

(** [state.applyModelViewMatrix(matrix)] *)
Definition applyModelViewMatrix (matrix : Matrix) (state : State) : State :=
{| modelViewMatrix := matrix; initialViewMatrix := initialViewMatrix state;
   appliedLights := appliedLights state;
   globalDefaultAttributes := globalDefaultAttributes state |}.

(** [osg::Light::apply(state)] *)
Definition Light_apply (light : Light) (state : State) : State :=
{| modelViewMatrix := modelViewMatrix state;
   initialViewMatrix := initialViewMatrix state;
   appliedLights := <[light_num light := (light, modelViewMatrix state)]>
                      (appliedLights state);
   globalDefaultAttributes := globalDefaultAttributes state |}.

(** [state.setGlobalDefaultAttribute(light)] *)
Definition setGlobalDefaultAttribute (light : Light) (state : State) : State :=
{| modelViewMatrix := modelViewMatrix state;
   initialViewMatrix := initialViewMatrix state;
   appliedLights := appliedLights state;
   globalDefaultAttributes := <[light_num light := light]>
                                (globalDefaultAttributes state) |}.

(** [LightStateAttribute::apply(state)] *)
Definition LightStateAttribute_apply (this : Light) (state : State) : State :=
let modelView := modelViewMatrix state in
let state := applyModelViewMatrix (initialViewMatrix state) state in
let state := Light_apply this state in
let state := setGlobalDefaultAttribute this state in
applyModelViewMatrix modelView state.

(** The lights of [lights] applied one after the other. *)
Definition applyLights (lights : list Light) (state : State) : State :=
foldl (λ state light, LightStateAttribute_apply light state) state lights.

End Model.

(** ** A concrete instance: scenes on a line

    Positions are integers, a matrix is a translation, a sphere is a centre
    and a radius (negative when the sphere is not valid), and
    [hash_combine] is the classic one of boost/functional/hash.hpp, for a
    64-bit [size_t]:
    [seed ^= hash_value(v) + 0x9e3779b9 + (seed << 6) + (seed >> 2)]
    with [hash_value(v) = static_cast<size_t>(v)]. *)

Module Line.

Definition boost_hash_combine (seed v : Z) : Z :=
Z.lxor seed
  (Ints.to_size_t (Ints.to_size_t v + 2654435769
                   + Ints.to_size_t (Z.shiftl seed 6) + Z.shiftr seed 2))%Z.

Definition intersects (a b : Z * Z) : bool :=
bool_decide (0 ≤ a.2)%Z && bool_decide (0 ≤ b.2)%Z
&& bool_decide ((a.1 - b.1) * (a.1 - b.1) ≤ (a.2 + b.2) * (a.2 + b.2))%Z.

#[local] Instance osg : Osg := {|
  Matrix := Z;
  Vec4 := Z;
  BoundingSphere := Z * Z;
  Camera := Z;
  float := Z;
  LightParams := string;
  Transforms := NodePtr → Z;
  matrix_mult := Z.add;
  matrix_preMult := λ m v, (v + m)%Z;
  sphere_at_origin := λ r, (0%Z, r);
  sphere_default := (0%Z, (-1)%Z);
  transformBoundingSphere := λ m s, ((s.1 + m)%Z, s.2);
  sphere_intersects := intersects;
  camera_getViewMatrix := λ cam, cam;
  computeLocalToWorld := λ tr path, foldr (λ n acc, (tr n + acc)%Z) 0%Z path;
  hash_combine := boost_hash_combine;
|}.

(** A lamp of radius 2, and forty of them at addresses 100 to 139. *)
Definition lamp : LightSource :=
{| ls_radius := 2%Z;
   ls_light := {| light_num := 0%Z; light_position := 0%Z; light_params := "lamp" |} |}.

Definition sources : gmap NodePtr LightSource :=
list_to_map ((λ i, (100 + i, lamp)) <$> seq 0 40).

(** A registry in which the forty lamps are registered, lamp [i] at
    position [10 * i]. *)
Definition crowded : LightManager :=
addLights ((λ i, (100 + i, (10 * Z.of_nat i)%Z)) <$> seq 0 40) LightManager_new.

(** The same registry after [prepareForCamera] for a camera at the origin. *)
Definition crowdedInView : LightManager :=
match prepareForCamera sources 0%Z crowded with
| Ok lm => lm
| _ => crowded
end.

(** A scene with two registries, 1 at the root and 3 below it, and a light
    entity 4 below both; node 5 is outside of both. *)
Definition managers : gmap NodePtr LightManager :=
{[ 1 := LightManager_new; 3 := LightManager_new ]}.

Definition nodePath : list NodePtr := [1; 2; 3; 4].

Definition transforms : NodePtr → Z := λ n, Z.of_nat n.

(** The scene below registry 1: the geodes 3 and 4 below the group 2, the
    geode 5 below the registry itself, and the geode 7 below the group 6. *)
Definition graph : SceneGraph :=
Group 1 [Group 2 [Geode 3; Geode 4]; Geode 5; Group 6 [Geode 7]].

Definition parents (node : NodePtr) : list NodePtr :=
match node with
| 2 | 5 | 6 => [1]
| 3 | 4 => [2]
| 7 => [6]
| _ => []
end.

(** The same scene after registry 1 has been copied, children shared, to a
    registry 9: the children of 1 have 9 as their second parent. *)
Definition copiedGraph : SceneGraph :=
Group 9 [Group 2 [Geode 3; Geode 4]; Geode 5; Group 6 [Geode 7]].

Definition parentsAfterCopy (node : NodePtr) : list NodePtr :=
match node with
| 2 | 5 | 6 => [1; 9]
| 3 | 4 => [2]
| 7 => [6]
| _ => []
end.

(** A registry with the lamps 100, 101 and 102 at the positions 0, 10 and
    20, and the calls of a frame on it: a state set for the lights 1 and 2, a
    late registration, a camera, and a state set for the lights 2 and 1. *)
Definition few : LightManager :=
addLights [(100, 0%Z); (101, 10%Z); (102, 20%Z)] LightManager_new.

Definition frameOps : list FrameOp :=
[OpGetLightListStateSet [1; 2]%Z; OpAddLight 100 400%Z; OpPrepareForCamera 3%Z;
 OpGetLightListStateSet [2; 1]%Z].

(** That registry and the heap after a state set for the lights 1 and 2 has
    been built. *)
Definition fewAfterCall : LightManager * list StateSet :=
match runFrameOps sources [OpGetLightListStateSet [1; 2]%Z] (few, []) with
| Ok st => st
| _ => (few, [])
end.

(** A frame that registers lamp 100 and builds a state set for it. *)
Definition smallFrame : list FrameOp :=
[OpAddLight 100 0%Z; OpGetLightListStateSet [0]%Z].

(** Runs of one callback after its first: for the entity 4 moved below
    registry 3 only, and for an entity 8 below node 5, outside of any
    registry. *)
Definition laterRuns : list (NodePtr * (NodePtr → Z) * list NodePtr) :=
[(4, transforms, [3; 4]); (8, transforms, [5; 8])].

End Line.

(** * Properties *)

Section Registry.
Context `{Osg}.

(** ** Frame reset *)

(** C3. Whatever the registry holds, right after [update()] its light
    sequence is empty, its composite-state cache is empty and the flag that
    says the view-space bounds are computed is cleared. *)
Theorem update_clears_frame_state (this : NodePtr) (parents : NodePtr → list NodePtr)
  (graph : SceneGraph) (lm : LightManager)
  (callbacks : gmap NodePtr (list CullCallback)) :
  let lm' := (update this parents graph lm callbacks).1 in
  getLights lm' = [] ∧ mStateSetCache lm' = ∅ ∧ mLightsInViewSpace lm' = false.
Proof.
  unfold update; simpl.
  destruct (mDecorated lm); simpl; auto.
Qed.

(** ** Registration *)

Lemma addLights_snoc calls lightSource worldMat (lm : LightManager) :
  addLights (calls ++ [(lightSource, worldMat)]) lm
  = addLight lightSource worldMat (addLights calls lm).
Proof. unfold addLights. by rewrite foldl_app. Qed.

(** C7. [addLight] called once for every element of [calls] appends one
    record per call, in call order, to the light sequence: nothing is merged
    and nothing is dropped. Right after a reset, [getLights] is therefore
    exactly the sequence of the calls, of the same length. *)
Theorem addLight_appends_in_call_order (calls : list (NodePtr * Matrix))
  (lm : LightManager) (this : NodePtr) (parents : NodePtr → list NodePtr)
  (graph : SceneGraph) (callbacks : gmap NodePtr (list CullCallback)) :
  let record (call : NodePtr * Matrix) :=
    {| mLightSource := call.1; mWorldMatrix := call.2; mViewBound := sphere_default |} in
  getLights (addLights calls lm) = getLights lm ++ map record calls
  ∧ getLights (addLights calls (update this parents graph lm callbacks).1)
    = map record calls
  ∧ length (getLights (addLights calls (update this parents graph lm callbacks).1))
    = length calls.
Proof.
  intros record.
  assert (Happ : ∀ lm0, getLights (addLights calls lm0) = getLights lm0 ++ map record calls).
  { induction calls as [|call calls IH] using rev_ind; intros lm0.
    - simpl. by rewrite app_nil_r.
    - destruct call as [lightSource worldMat]. rewrite addLights_snoc.
      unfold getLights in *. simpl. rewrite IH, map_app, app_assoc. done. }
  split; [apply Happ|].
  assert (Hfresh : getLights (addLights calls (update this parents graph lm callbacks).1)
                   = map record calls).
  { rewrite Happ. unfold update. simpl. by destruct (mDecorated lm). }
  split; [done|]. by rewrite Hfresh, length_map.
Qed.

(** ** The composite-state cache *)

Lemma vector_at_valid sources (lights : list LightSourceTransform) lightIndex :
  validIndex sources lights lightIndex = true →
  ∃ l lightSource, vector_at lights lightIndex = Ok l
                   ∧ sources !! mLightSource l = Some lightSource.
Proof.
  unfold validIndex. destruct (vector_at lights lightIndex) as [l| |]; try done.
  intros Hlive%bool_decide_eq_true. destruct Hlive as [lightSource Hsrc]. eauto.
Qed.

Lemma fillStateSet_total sources lights i lightList stateset :
  validLightList sources lights lightList = true →
  ∃ stateset', fillStateSet sources lights i lightList stateset = Ok stateset'.
Proof.
  revert i stateset. induction lightList as [|lightIndex rest IH]; intros i stateset Hvalid.
  - by eexists.
  - simpl in Hvalid. apply andb_prop in Hvalid as [Hhead Hrest].
    destruct (vector_at_valid _ _ _ Hhead) as (l & lightSource & Hat & Hsrc).
    simpl. rewrite Hat. simpl. unfold deref. rewrite Hsrc. simpl. by apply IH.
Qed.

Lemma getLightListStateSet_hit sources lightList (lm : LightManager) heap ptr :
  mStateSetCache lm !! hash_LightList lightList = Some ptr →
  getLightListStateSet sources lightList lm heap = Ok (ptr, lm, heap).
Proof. intros Hhit. unfold getLightListStateSet. by rewrite Hhit. Qed.

Lemma getLightListStateSet_miss sources lightList (lm : LightManager) heap stateset :
  mStateSetCache lm !! hash_LightList lightList = None →
  fillStateSet sources (mLights lm) 0 lightList StateSet_new = Ok stateset →
  getLightListStateSet sources lightList lm heap
  = Ok (length heap,
        {| mLights := mLights lm; mLightsInViewSpace := mLightsInViewSpace lm;
           mDecorated := mDecorated lm;
           mStateSetCache := <[hash_LightList lightList := length heap]> (mStateSetCache lm) |},
        heap ++ [stateset]).
Proof. intros Hmiss Hfill. unfold getLightListStateSet. by rewrite Hmiss, Hfill. Qed.

Lemma getLightListStateSet_total sources lightList (lm : LightManager) heap :
  validLightList sources (mLights lm) lightList = true →
  ∃ ptr lm' heap', getLightListStateSet sources lightList lm heap = Ok (ptr, lm', heap').
Proof.
  intros Hvalid.
  destruct (mStateSetCache lm !! hash_LightList lightList) as [ptr|] eqn:Hcache.
  - eauto using getLightListStateSet_hit.
  - destruct (fillStateSet_total sources (mLights lm) 0 lightList StateSet_new Hvalid)
      as [stateset Hfill].
    eauto using getLightListStateSet_miss.
Qed.

(** What a call that returns has done: a hit leaves everything as it is, a
    miss allocates the state set at the end of the heap and enters it. *)
Lemma getLightListStateSet_inv sources lightList (lm lm' : LightManager) heap heap' ptr :
  getLightListStateSet sources lightList lm heap = Ok (ptr, lm', heap') →
  (mStateSetCache lm !! hash_LightList lightList = Some ptr ∧ lm' = lm ∧ heap' = heap)
  ∨ (mStateSetCache lm !! hash_LightList lightList = None
     ∧ ∃ stateset, fillStateSet sources (mLights lm) 0 lightList StateSet_new = Ok stateset
        ∧ ptr = length heap ∧ heap' = heap ++ [stateset]
        ∧ mLights lm' = mLights lm
        ∧ mLightsInViewSpace lm' = mLightsInViewSpace lm
        ∧ mDecorated lm' = mDecorated lm
        ∧ mStateSetCache lm' = <[hash_LightList lightList := ptr]> (mStateSetCache lm)).
Proof.
  unfold getLightListStateSet.
  destruct (mStateSetCache lm !! hash_LightList lightList) as [found|] eqn:Hcache.
  - intros [= <- <- <-]. by left.
  - destruct (fillStateSet sources (mLights lm) 0 lightList StateSet_new)
      as [stateset| |] eqn:Hfill; try done.
    intros [= <- <- <-]. right. split; [done|]. exists stateset. by repeat split.
Qed.

Lemma getLightListStateSet_cached sources lightList (lm lm' : LightManager) heap heap' ptr :
  getLightListStateSet sources lightList lm heap = Ok (ptr, lm', heap') →
  mStateSetCache lm' !! hash_LightList lightList = Some ptr.
Proof.
  intros [(Hhit & -> & _)|(_ & stateset & _ & _ & _ & _ & _ & _ & ->)]%getLightListStateSet_inv.
  - done.
  - apply lookup_insert_eq.
Qed.

Lemma frameExtends_refl st : frameExtends st st.
Proof. unfold frameExtends. auto. Qed.

Lemma frameExtends_trans st1 st2 st3 :
  frameExtends st1 st2 → frameExtends st2 st3 → frameExtends st1 st3.
Proof.
  intros (Hkeep1 & Hpre1 & Hwf1 & Hdec1 & Hview1) (Hkeep2 & Hpre2 & Hwf2 & Hdec2 & Hview2).
  unfold frameExtends. split; [auto|]. split; [by etrans|].
  split; [auto|]. split; [congruence|auto].
Qed.

Lemma getLightListStateSet_extends sources lightList (lm lm' : LightManager) heap heap' ptr :
  getLightListStateSet sources lightList lm heap = Ok (ptr, lm', heap') →
  frameExtends (lm, heap) (lm', heap').
Proof.
  intros [(_ & -> & ->)|(Hmiss & stateset & _ & -> & -> & _ & Hview & Hdec & Hcache)]
    %getLightListStateSet_inv.
  - apply frameExtends_refl.
  - unfold frameExtends, cacheWf; simpl. rewrite Hcache, Hview, Hdec.
    split; [|split; [|split; [|done]]].
    + intros key ptr Hkey. rewrite lookup_insert_ne; [done|congruence].
    + by apply prefix_app_r.
    + intros [Hbound Hinj]. split.
      * intros key ptr. rewrite length_app; simpl.
        rewrite lookup_insert. case_decide; [intros [= <-]; lia|].
        intros Hkey%Hbound. lia.
      * intros key1 key2 ptr. rewrite !lookup_insert.
        repeat case_decide; subst; try done.
        -- intros [= <-] Hkey2%Hbound. lia.
        -- intros Hkey1%Hbound [= <-]. lia.
        -- apply Hinj.
Qed.

Lemma runFrameOp_extends sources op st st' :
  runFrameOp sources op st = Ok st' → frameExtends st st'.
Proof.
  destruct st as [lm heap]. destruct op as [lightSource worldMat|cam|lightList]; simpl.
  - intros [= <-]. unfold frameExtends, cacheWf. simpl. auto.
  - unfold prepareForCamera. destruct (mLightsInViewSpace lm) eqn:Hflag; simpl.
    + intros [= <-]. apply frameExtends_refl.
    + destruct (viewSpaceBounds sources cam (mLights lm)); try done.
      intros [= <-]. unfold frameExtends, cacheWf. simpl. auto.
  - destruct (getLightListStateSet sources lightList lm heap)
      as [[[ptr lm'] heap']| |] eqn:Hcall; try done.
    intros [= <-]. by eapply getLightListStateSet_extends.
Qed.

Lemma runFrameOps_extends sources ops st st' :
  runFrameOps sources ops st = Ok st' → frameExtends st st'.
Proof.
  revert st. induction ops as [|op rest IH]; intros st; simpl.
  - intros [= <-]. apply frameExtends_refl.
  - destruct (runFrameOp sources op st) as [st1| |] eqn:Hop; try done.
    intros Hrest. eapply frameExtends_trans; [by eapply runFrameOp_extends|by apply IH].
Qed.

(** An empty cache is well-formed, such is the cache of a registry that has
    just been reset, and the calls of a frame keep a cache well-formed. *)
Lemma cacheWf_empty_cache (lm : LightManager) heap :
  mStateSetCache lm = ∅ → cacheWf lm heap.
Proof. intros Hempty. unfold cacheWf. rewrite Hempty. split; by intros *. Qed.

Lemma update_cacheWf this parents graph (lm : LightManager) callbacks heap :
  cacheWf (update this parents graph lm callbacks).1 heap.
Proof.
  unfold update, cacheWf. simpl. destruct (mDecorated lm); simpl; split; by intros *.
Qed.

Lemma runFrameOps_cacheWf sources ops (lm lm' : LightManager) heap heap' :
  cacheWf lm heap → runFrameOps sources ops (lm, heap) = Ok (lm', heap') →
  cacheWf lm' heap'.
Proof.
  intros Hwf Hrun. apply runFrameOps_extends in Hrun as (_ & _ & Hkeep & _). by apply Hkeep.
Qed.

(** C2, as amended. From a registry with a well-formed cache, a call of
    [getLightListStateSet] with a valid index sequence returns a state set,
    and as long as the registry is not reset, (1) every later call with the
    same sequence returns that same state set and changes nothing, and
    (2) every later call with a valid sequence whose cache key differs
    returns another state set. *)
Theorem getLightListStateSet_same_and_distinct (sources : gmap NodePtr LightSource)
  (lm : LightManager) (heap : list StateSet) (lightList : list Z) :
  cacheWf lm heap →
  validLightList sources (mLights lm) lightList = true →
  ∃ ptr lm1 heap1,
    getLightListStateSet sources lightList lm heap = Ok (ptr, lm1, heap1) ∧
    ∀ ops lm2 heap2,
      runFrameOps sources ops (lm1, heap1) = Ok (lm2, heap2) →
      getLightListStateSet sources lightList lm2 heap2 = Ok (ptr, lm2, heap2) ∧
      ∀ lightList',
        hash_LightList lightList' ≠ hash_LightList lightList →
        validLightList sources (mLights lm2) lightList' = true →
        ∃ ptr' lm3 heap3,
          getLightListStateSet sources lightList' lm2 heap2 = Ok (ptr', lm3, heap3)
          ∧ ptr' ≠ ptr.
Proof.
  intros Hwf Hvalid.
  destruct (getLightListStateSet_total sources lightList lm heap Hvalid)
    as (ptr & lm1 & heap1 & Hcall).
  exists ptr, lm1, heap1. split; [done|].
  intros ops lm2 heap2 Hops.
  pose proof (getLightListStateSet_cached _ _ _ _ _ _ _ Hcall) as Hcached.
  pose proof (getLightListStateSet_extends _ _ _ _ _ _ _ Hcall) as (_ & _ & Hwf1 & _).
  pose proof (runFrameOps_extends _ _ _ _ Hops) as (Hkeep & _ & Hwf2 & _).
  simpl in *. apply Hkeep in Hcached.
  destruct (Hwf2 (Hwf1 Hwf)) as [Hbound Hinj].
  split; [by apply getLightListStateSet_hit|].
  intros lightList' Hkey Hvalid'.
  destruct (getLightListStateSet_total sources lightList' lm2 heap2 Hvalid')
    as (ptr' & lm3 & heap3 & Hcall').
  exists ptr', lm3, heap3. split; [done|]. intros ->.
  apply getLightListStateSet_inv in Hcall'
    as [(Hhit & _)|(_ & stateset & _ & Hfresh & _)].
  - by apply Hkey, (Hinj _ _ ptr).
  - apply Hbound in Hcached. lia.
Qed.

(** C10. The cache is keyed by the hash of the index sequence alone. When
    the keys of two sequences coincide, a call with the second one, made
    after a call with the first one and before any reset, finds the entry of
    the first one: it returns the same state set and builds nothing, and if
    the first call had to build the state set, that state set is the one
    filled from the first sequence. *)
Theorem getLightListStateSet_keyed_by_hash (sources : gmap NodePtr LightSource)
  (lm : LightManager) (heap : list StateSet) (lightList1 lightList2 : list Z) :
  hash_LightList lightList1 = hash_LightList lightList2 →
  validLightList sources (mLights lm) lightList1 = true →
  ∃ ptr lm1 heap1,
    getLightListStateSet sources lightList1 lm heap = Ok (ptr, lm1, heap1) ∧
    ∀ ops lm2 heap2,
      runFrameOps sources ops (lm1, heap1) = Ok (lm2, heap2) →
      getLightListStateSet sources lightList2 lm2 heap2 = Ok (ptr, lm2, heap2) ∧
      (mStateSetCache lm !! hash_LightList lightList1 = None →
       ∃ stateset,
         fillStateSet sources (mLights lm) 0 lightList1 StateSet_new = Ok stateset
         ∧ heap2 !! ptr = Some stateset).
Proof.
  intros Hkey Hvalid.
  destruct (getLightListStateSet_total sources lightList1 lm heap Hvalid)
    as (ptr & lm1 & heap1 & Hcall).
  exists ptr, lm1, heap1. split; [done|].
  intros ops lm2 heap2 Hops.
  pose proof (getLightListStateSet_cached _ _ _ _ _ _ _ Hcall) as Hcached.
  pose proof (runFrameOps_extends _ _ _ _ Hops) as (Hkeep & Hprefix & _).
  simpl in *. split.
  - apply getLightListStateSet_hit. rewrite <- Hkey. by apply Hkeep.
  - intros Hmiss.
    apply getLightListStateSet_inv in Hcall
      as [(Hhit & _)|(_ & stateset & Hfill & -> & -> & _)]; [congruence|].
    exists stateset. split; [done|].
    eapply prefix_lookup_Some; [|done]. by apply list_lookup_middle.
Qed.

(** ** View-space bounds *)

Lemma viewSpaceBounds_length sources cam (lights lights' : list LightSourceTransform) :
  viewSpaceBounds sources cam lights = Ok lights' → length lights' = length lights.
Proof.
  revert lights'. induction lights as [|l rest IH]; intros lights' Hrun; simpl in Hrun.
  - by inversion Hrun.
  - destruct (viewSpaceBound sources cam l) as [l'| |]; try done. simpl in Hrun.
    destruct (viewSpaceBounds sources cam rest) as [rest'| |]; try done.
    inversion Hrun; subst. simpl. f_equal. by apply IH.
Qed.

Lemma prepareForCamera_sets_flag sources cam (lm lm' : LightManager) :
  prepareForCamera sources cam lm = Ok lm' → mLightsInViewSpace lm' = true.
Proof.
  unfold prepareForCamera. destruct (mLightsInViewSpace lm) eqn:Hflag.
  - intros [= <-]. done.
  - destruct (viewSpaceBounds sources cam (mLights lm)); try done.
    by intros [= <-].
Qed.

(** A second call in a row, with any camera, changes nothing. *)
Lemma prepareForCamera_twice sources cam1 cam2 (lm lm1 : LightManager) :
  prepareForCamera sources cam1 lm = Ok lm1 →
  prepareForCamera sources cam2 lm1 = Ok lm1.
Proof.
  intros Hfirst. apply prepareForCamera_sets_flag in Hfirst.
  unfold prepareForCamera. by rewrite Hfirst.
Qed.

(** With the view-space flag set, the calls of a frame keep the records
    that are there, view-space bounds included, and add records after
    them. *)
Lemma runFrameOp_keeps_bounds sources op (lm lm' : LightManager) heap heap' :
  mLightsInViewSpace lm = true →
  runFrameOp sources op (lm, heap) = Ok (lm', heap') →
  mLights lm `prefix_of` mLights lm' ∧ mLightsInViewSpace lm' = true.
Proof.
  intros Hflag. destruct op as [lightSource worldMat|cam|lightList]; simpl.
  - intros [= <- <-]. simpl. split; [by apply prefix_app_r|done].
  - unfold prepareForCamera. rewrite Hflag. simpl. by intros [= <- <-].
  - destruct (getLightListStateSet sources lightList lm heap)
      as [[[ptr lm1] heap1]| |] eqn:Hcall; try done.
    simpl. intros [= <- <-].
    apply getLightListStateSet_inv in Hcall
      as [(_ & -> & _)|(_ & _ & _ & _ & _ & -> & -> & _)]; done.
Qed.

Lemma runFrameOps_keeps_bounds sources ops (lm lm' : LightManager) heap heap' :
  mLightsInViewSpace lm = true →
  runFrameOps sources ops (lm, heap) = Ok (lm', heap') →
  mLights lm `prefix_of` mLights lm' ∧ mLightsInViewSpace lm' = true.
Proof.
  revert lm heap. induction ops as [|op rest IH]; intros lm heap Hflag; simpl.
  - by intros [= <- <-].
  - destruct (runFrameOp sources op (lm, heap)) as [[lm1 heap1]| |] eqn:Hop; try done.
    simpl. intros Hrest.
    destruct (runFrameOp_keeps_bounds _ _ _ _ _ _ Hflag Hop) as [Hprefix1 Hflag1].
    destruct (IH _ _ Hflag1 Hrest) as [Hprefix Hflag'].
    split; [by etrans|done].
Qed.

(** C5. Once the view-space bounds are computed, [prepareForCamera] returns
    the registry as it is, whatever the camera: no bound is recomputed. This
    lasts until the next reset: after any calls of the frame, calls of
    [prepareForCamera] for other cameras among them, the records are still
    there with the bounds they had, and [prepareForCamera] still changes
    nothing. *)
Theorem prepareForCamera_noop_when_computed (sources : gmap NodePtr LightSource)
  (cam : Camera) (lm : LightManager) :
  mLightsInViewSpace lm = true →
  prepareForCamera sources cam lm = Ok lm
  ∧ ∀ ops heap lm' heap',
      runFrameOps sources ops (lm, heap) = Ok (lm', heap') →
      mLights lm `prefix_of` mLights lm'
      ∧ prepareForCamera sources cam lm' = Ok lm'.
Proof.
  intros Hflag. split.
  - unfold prepareForCamera. by rewrite Hflag.
  - intros ops heap lm' heap' Hops.
    destruct (runFrameOps_keeps_bounds _ _ _ _ _ _ Hflag Hops) as [Hprefix Hflag'].
    split; [done|]. unfold prepareForCamera. by rewrite Hflag'.
Qed.

(** Registrations interleaved with the other calls of a frame: the records
    are still those of the registrations, one per call and in call order. *)
Lemma viewSpaceBounds_registration sources cam (lights lights' : list LightSourceTransform) :
  viewSpaceBounds sources cam lights = Ok lights' →
  registration <$> lights' = registration <$> lights.
Proof.
  revert lights'. induction lights as [|l rest IH]; intros lights' Hrun; simpl in Hrun.
  - by inversion Hrun.
  - unfold viewSpaceBound, deref in Hrun.
    destruct (sources !! mLightSource l) as [lightSource|]; try done. simpl in Hrun.
    destruct (viewSpaceBounds sources cam rest) as [rest'| |]; try done.
    inversion Hrun; subst. rewrite !fmap_cons. f_equal. by apply IH.
Qed.

Lemma runFrameOps_registrations sources ops (lm lm' : LightManager) heap heap' :
  runFrameOps sources ops (lm, heap) = Ok (lm', heap') →
  registration <$> getLights lm'
  = (registration <$> getLights lm) ++ registrations ops.
Proof.
  unfold getLights. revert lm heap.
  induction ops as [|op rest IH]; intros lm heap; simpl.
  - intros [= <- <-]. by rewrite app_nil_r.
  - destruct (runFrameOp sources op (lm, heap)) as [[lm1 heap1]| |] eqn:Hop; try done.
    simpl. intros Hrest. rewrite (IH _ _ Hrest), app_assoc. f_equal.
    destruct op as [lightSource worldMat|cam|lightList]; simpl in Hop.
    + injection Hop as <- <-. simpl. by rewrite fmap_app.
    + rewrite app_nil_r. unfold prepareForCamera in Hop.
      destruct (mLightsInViewSpace lm); simpl in Hop; [by injection Hop as <- <-|].
      destruct (viewSpaceBounds sources cam (mLights lm)) as [lights'| |] eqn:Hrun;
        try done.
      injection Hop as <- <-. simpl. by eapply viewSpaceBounds_registration.
    + rewrite app_nil_r.
      destruct (getLightListStateSet sources lightList lm heap)
        as [[[ptr lm2] heap2]| |] eqn:Hcall; try done.
      injection Hop as <- <-.
      apply getLightListStateSet_inv in Hcall
        as [(_ & -> & _)|(_ & _ & _ & _ & _ & -> & _)]; done.
Qed.

(** ** Slots of a composite state *)

Lemma fillStateSet_slots sources (lights : list LightSourceTransform) (i0 : Z)
  (lightList : list Z) (stateset0 stateset : StateSet) :
  (0 ≤ i0)%Z → (i0 + Z.of_nat (length lightList) ≤ Ints.int_range)%Z →
  fillStateSet sources lights i0 lightList stateset0 = Ok stateset →
  (∀ (j : nat) lightIndex, lightList !! j = Some lightIndex →
     ∃ l lightSource,
       vector_at lights lightIndex = Ok l
       ∧ sources !! mLightSource l = Some lightSource
       ∧ attributeList stateset !! (i0 + Z.of_nat j)%Z
         = Some {| light_num := (i0 + Z.of_nat j)%Z;
                   light_position :=
                     matrix_preMult (mWorldMatrix l) (light_position (ls_light lightSource));
                   light_params := light_params (ls_light lightSource) |}
       ∧ modeList stateset !! (GL_LIGHT0 + (i0 + Z.of_nat j))%Z = Some true)
  ∧ (∀ slot, ¬ (i0 ≤ slot < i0 + Z.of_nat (length lightList))%Z →
       attributeList stateset !! slot = attributeList stateset0 !! slot
       ∧ modeList stateset !! (GL_LIGHT0 + slot)%Z
         = modeList stateset0 !! (GL_LIGHT0 + slot)%Z).
Proof.
  revert i0 stateset0.
  induction lightList as [|lightIndex rest IH]; intros i0 stateset0 Hpos Hfit Hfill.
  - simpl in Hfill. injection Hfill as <-. split; [by intros j idx|done].
  - simpl in Hfill, Hfit.
    destruct (vector_at lights lightIndex) as [l| |] eqn:Hat; try done. simpl in Hfill.
    unfold deref in Hfill.
    destruct (sources !! mLightSource l) as [lightSource|] eqn:Hsrc; try done.
    simpl in Hfill.
    apply IH in Hfill as [Hin Hout]; [|lia..].
    assert (Hnum : Ints.to_int i0 = i0).
    { unfold Ints.to_int, Ints.int_range in *. rewrite Z.mod_small; lia. }
    split.
    + intros [|j] idx Hj; simpl in Hj.
      * injection Hj as <-. exists l, lightSource. split; [done|]. split; [done|].
        destruct (Hout i0) as [Hattr Hmode]; [lia|].
        rewrite Z.add_0_r, Hattr, Hmode. unfold cloneLight; simpl.
        rewrite Hnum, !lookup_insert_eq. done.
      * destruct (Hin j idx Hj) as (l' & lightSource' & Hat' & Hsrc' & Hattr & Hmode).
        exists l', lightSource'.
        replace (i0 + Z.of_nat (S j))%Z with (i0 + 1 + Z.of_nat j)%Z by lia. done.
    + intros slot Hslot. rewrite length_cons in Hslot.
      destruct (Hout slot) as [Hattr Hmode]; [lia|].
      rewrite Hattr, Hmode. unfold cloneLight; simpl. rewrite Hnum.
      rewrite !lookup_insert_ne; [done|lia..].
Qed.

(** C6. When [getLightListStateSet] builds a state set (its key is not in
    the cache) from a valid index sequence, the light at position [i] of the
    sequence is in the state set under light number [i]: it is the copy of
    the light of record [lightList[i]], positioned by the world matrix of
    that record, with its mode switched on; no other slot is filled. *)
Theorem getLightListStateSet_slot_is_position (sources : gmap NodePtr LightSource)
  (lm : LightManager) (heap : list StateSet) (lightList : list Z) :
  mStateSetCache lm !! hash_LightList lightList = None →
  validLightList sources (mLights lm) lightList = true →
  (Z.of_nat (length lightList) ≤ Ints.int_range)%Z →
  ∃ ptr lm' heap' stateset,
    getLightListStateSet sources lightList lm heap = Ok (ptr, lm', heap')
    ∧ heap' !! ptr = Some stateset
    ∧ (∀ (i : nat) lightIndex, lightList !! i = Some lightIndex →
         ∃ l lightSource,
           vector_at (mLights lm) lightIndex = Ok l
           ∧ sources !! mLightSource l = Some lightSource
           ∧ attributeList stateset !! Z.of_nat i
             = Some {| light_num := Z.of_nat i;
                       light_position :=
                         matrix_preMult (mWorldMatrix l)
                                        (light_position (ls_light lightSource));
                       light_params := light_params (ls_light lightSource) |}
           ∧ modeList stateset !! (GL_LIGHT0 + Z.of_nat i)%Z = Some true)
    ∧ (∀ slot, ¬ (0 ≤ slot < Z.of_nat (length lightList))%Z →
         attributeList stateset !! slot = None).
Proof.
  intros Hmiss Hvalid Hfit.
  destruct (fillStateSet_total sources (mLights lm) 0 lightList StateSet_new Hvalid)
    as [stateset Hfill].
  eexists _, _, _, stateset.
  split; [by apply getLightListStateSet_miss|].
  split; [by apply list_lookup_middle|].
  apply fillStateSet_slots in Hfill as [Hin Hout]; [|lia..].
  split.
  - intros i lightIndex Hi.
    destruct (Hin i lightIndex Hi) as (l & lightSource & Hat & Hsrc & Hattr & Hmode).
    rewrite Z.add_0_l in Hattr, Hmode. by exists l, lightSource.
  - intros slot Hslot. destruct (Hout slot) as [-> _]; [lia|done].
Qed.

(** ** Selection of the lights of a node *)

Lemma intersectsAt_middle nodeBound (before after : list LightSourceTransform) l :
  intersectsAt nodeBound (before ++ l :: after) (Z.of_nat (length before))
  = sphere_intersects (mViewBound l) nodeBound.
Proof.
  unfold intersectsAt. rewrite Nat2Z.id, list_lookup_middle by done.
  rewrite bool_decide_eq_true_2 by lia. done.
Qed.

(** The loop collects the indices that a filter of the index range keeps. *)
Lemma collectLights_filter nodeBound (before lights : list LightSourceTransform) :
  (Z.of_nat (length before + length lights) ≤ Ints.int_range)%Z →
  collectLights nodeBound (Z.of_nat (length before)) lights
  = filter (λ i, intersectsAt nodeBound (before ++ lights) i = true)
           (seqZ (Z.of_nat (length before)) (Z.of_nat (length lights))).
Proof.
  revert before. induction lights as [|l rest IH]; intros before Hfit.
  - by rewrite seqZ_nil.
  - rewrite length_cons in Hfit.
    rewrite seqZ_cons by (rewrite length_cons; lia).
    rewrite filter_cons, intersectsAt_middle. simpl collectLights.
    assert (Hnum : Ints.to_int (Z.of_nat (length before)) = Z.of_nat (length before)).
    { unfold Ints.to_int, Ints.int_range in *. rewrite Z.mod_small; lia. }
    assert (Hrest : collectLights nodeBound (Z.of_nat (length before) + 1) rest
                    = filter (λ i, intersectsAt nodeBound (before ++ l :: rest) i = true)
                        (seqZ (Z.succ (Z.of_nat (length before)))
                              (Z.pred (Z.of_nat (length (l :: rest)))))).
    { specialize (IH (before ++ [l])).
      rewrite length_app, <- app_assoc in IH. simpl in IH.
      replace (Z.of_nat (length before) + 1)%Z with (Z.of_nat (length before + 1)) by lia.
      rewrite IH by lia. rewrite length_cons. f_equal. f_equal; lia. }
    rewrite Hrest, Hnum.
    destruct (sphere_intersects (mViewBound l) nodeBound); by case_decide.
Qed.

Lemma collectLights_intersecting nodeBound (lights : list LightSourceTransform) :
  (Z.of_nat (length lights) ≤ Ints.int_range)%Z →
  collectLights nodeBound 0 lights = intersectingLights nodeBound lights.
Proof. intros Hfit. by apply (collectLights_filter nodeBound []). Qed.

(** The loop that pops elements leaves the first eight. *)
Lemma popWhileOver8_take fuel (lightList : list Z) :
  length lightList ≤ fuel + 8 → popWhileOver8 fuel lightList = take 8 lightList.
Proof.
  revert lightList. induction fuel as [|fuel IH]; intros lightList Hfuel; simpl.
  - by rewrite take_ge by lia.
  - case_decide as Hover; [|by rewrite take_ge by lia].
    rewrite removelast_firstn_len. rewrite IH by (rewrite length_take; lia).
    rewrite take_take. f_equal. lia.
Qed.

Lemma truncateLights_take (lightList : list Z) :
  truncateLights lightList = take 8 lightList.
Proof. apply popWhileOver8_take. lia. Qed.

Lemma StronglySorted_seqZ m n : StronglySorted Z.lt (seqZ m n).
Proof.
  destruct (decide (0 ≤ n)%Z) as [Hn|Hn]; [|rewrite seqZ_nil by lia; constructor].
  rewrite <- (Z2Nat.id n) by done. generalize (Z.to_nat n) as k. clear n Hn.
  intros k. revert m. induction k as [|k IH]; intros m.
  - rewrite seqZ_nil by lia. constructor.
  - rewrite seqZ_cons by lia. constructor.
    + replace (Z.pred (Z.of_nat (S k))) with (Z.of_nat k) by lia. apply IH.
    + apply Forall_seqZ. lia.
Qed.

Lemma StronglySorted_sublist {A} (R : relation A) (l1 l2 : list A) :
  l1 `sublist_of` l2 → StronglySorted R l2 → StronglySorted R l1.
Proof.
  induction 1 as [|x l1 l2 Hsub IH|x l1 l2 Hsub IH]; intros Hsorted.
  - constructor.
  - apply StronglySorted_inv in Hsorted as [Hrest Hall]. constructor; [auto|].
    eapply Forall_forall. intros y Hy. eapply Forall_forall in Hall; [done|].
    by eapply elem_of_sublist.
  - apply StronglySorted_inv in Hsorted as [Hrest _]. auto.
Qed.

Lemma liveSources_spec sources (lights : list LightSourceTransform) :
  liveSources sources lights = true
  ↔ ∀ l, l ∈ lights → is_Some (sources !! mLightSource l).
Proof.
  unfold liveSources. rewrite forallb_forall.
  setoid_rewrite <- list_elem_of_In. by setoid_rewrite bool_decide_eq_true.
Qed.

Lemma viewSpaceBounds_total sources cam (lights : list LightSourceTransform) :
  liveSources sources lights = true →
  ∃ lights', viewSpaceBounds sources cam lights = Ok lights'
             ∧ mLightSource <$> lights' = mLightSource <$> lights.
Proof.
  induction lights as [|l rest IH]; simpl; intros Hlive.
  - by exists [].
  - apply andb_prop in Hlive as [Hl Hrest].
    apply bool_decide_eq_true in Hl as [lightSource Hsrc].
    destruct (IH Hrest) as (rest' & -> & Hsame).
    unfold viewSpaceBound, deref. rewrite Hsrc. simpl.
    eexists. split; [done|]. rewrite !fmap_cons. simpl. by f_equal.
Qed.

Lemma prepareForCamera_total sources cam (lm : LightManager) :
  liveSources sources (mLights lm) = true →
  ∃ lm1, prepareForCamera sources cam lm = Ok lm1
         ∧ mLightSource <$> mLights lm1 = mLightSource <$> mLights lm.
Proof.
  intros Hlive. unfold prepareForCamera. destruct (mLightsInViewSpace lm).
  - by exists lm.
  - destruct (viewSpaceBounds_total sources cam _ Hlive) as (lights' & -> & Hsame).
    simpl. eexists. split; [done|]. done.
Qed.

Lemma liveSources_same sources (lights lights' : list LightSourceTransform) :
  mLightSource <$> lights' = mLightSource <$> lights →
  liveSources sources lights = true → liveSources sources lights' = true.
Proof.
  rewrite !liveSources_spec. intros Hsame Hlive l' Hl'.
  assert (Hin : mLightSource l' ∈ mLightSource <$> lights).
  { rewrite <- Hsame. by apply list_elem_of_fmap_2. }
  apply list_elem_of_fmap in Hin as (l & -> & Hl). by apply Hlive.
Qed.

Lemma intersectingLights_spec nodeBound (lights : list LightSourceTransform) i :
  i ∈ intersectingLights nodeBound lights ↔ intersectsAt nodeBound lights i = true.
Proof.
  unfold intersectingLights. rewrite list_elem_of_filter, elem_of_seqZ.
  split; [by intros [? _]|]. intros Hhit. split; [done|].
  unfold intersectsAt in Hhit. apply andb_prop in Hhit as [Hpos%bool_decide_eq_true Hl].
  destruct (lights !! Z.to_nat i) as [l|] eqn:Hi; [|done].
  apply lookup_lt_Some in Hi. lia.
Qed.

Lemma intersectingLights_sorted nodeBound (lights : list LightSourceTransform) :
  StronglySorted Z.lt (intersectingLights nodeBound lights).
Proof.
  eapply StronglySorted_sublist; [apply sublist_filter|apply StronglySorted_seqZ].
Qed.

Lemma intersectingLights_valid sources nodeBound (lights : list LightSourceTransform) :
  liveSources sources lights = true →
  validLightList sources lights (take 8 (intersectingLights nodeBound lights)) = true.
Proof.
  rewrite liveSources_spec. intros Hlive.
  unfold validLightList. apply forallb_forall. intros i Hi%list_elem_of_In.
  apply elem_of_take in Hi as (k & Hk%list_elem_of_lookup_2 & _).
  apply intersectingLights_spec in Hk. unfold intersectsAt in Hk.
  apply andb_prop in Hk as [Hpos%bool_decide_eq_true Hl].
  destruct (lights !! Z.to_nat i) as [l|] eqn:Hlookup; [|done].
  unfold validIndex, vector_at. rewrite decide_True, Hlookup by done.
  apply bool_decide_eq_true, Hlive. by eapply list_elem_of_lookup_2.
Qed.

(** C1. A run of the cull callback on a node first has the view-space bounds
    of the lights computed (if they are not yet), and then selects, with
    [hits] the indices of the lights whose view-space bound intersects the
    view-space bound of the node:
    - [hits] in increasing order (the registration order) cut to its first
      eight elements;
    - so a light that does not intersect is never selected, every light that
      intersects is selected as long as at most eight do, and exactly the
      first eight are selected when more than eight do.
    With nothing selected the callback only traverses; otherwise it pushes
    the state set that [getLightListStateSet] returns for the selection. *)
Theorem cull_selects_intersecting_lights (cb : CullCallback) (this : NodePtr)
  (sources : gmap NodePtr LightSource) (cam : Camera) (modelView : Matrix)
  (nodeBound : BoundingSphere) (managers : gmap NodePtr LightManager)
  (heap : list StateSet) (lm : LightManager) :
  cull_mLightManager cb = Some this →
  managers !! this = Some lm →
  liveSources sources (mLights lm) = true →
  (Z.of_nat (length (mLights lm)) ≤ Ints.int_range)%Z →
  ∃ lm1,
    prepareForCamera sources cam lm = Ok lm1 ∧
    let viewBound := transformBoundingSphere modelView nodeBound in
    let hits := intersectingLights viewBound (getLights lm1) in
    let selected := take 8 hits in
    (selected = [] →
     CullCallback_call cb sources cam modelView nodeBound managers heap
     = Ok (TraverseOnly, <[this := lm1]> managers, heap)) ∧
    (selected ≠ [] →
     ∃ stateset lm2 heap2,
       getLightListStateSet sources selected lm1 heap = Ok (stateset, lm2, heap2)
       ∧ CullCallback_call cb sources cam modelView nodeBound managers heap
         = Ok (PushTraversePop stateset, <[this := lm2]> managers, heap2)) ∧
    StronglySorted Z.lt hits ∧
    (∀ i, i ∈ hits ↔ intersectsAt viewBound (getLights lm1) i = true) ∧
    (∀ i, i ∈ selected → intersectsAt viewBound (getLights lm1) i = true) ∧
    (length hits ≤ 8 →
     ∀ i, intersectsAt viewBound (getLights lm1) i = true → i ∈ selected) ∧
    (8 < length hits → length selected = 8 ∧ selected `prefix_of` hits).
Proof.
  intros Hcb Hthis Hlive Hfit.
  destruct (prepareForCamera_total sources cam lm Hlive) as (lm1 & Hprepare & Hsame).
  exists lm1. split; [done|]. intros viewBound hits selected.
  assert (Hlen : length (mLights lm1) = length (mLights lm)).
  { by rewrite <- (length_fmap mLightSource), Hsame, length_fmap. }
  assert (Hcollect : collectLights viewBound 0 (getLights lm1) = hits).
  { apply collectLights_intersecting. unfold getLights. lia. }
  assert (Hcall : CullCallback_call cb sources cam modelView nodeBound managers heap
                  = if decide (selected = [])
                    then Ok (TraverseOnly, <[this := lm1]> managers, heap)
                    else '(stateset, lm2, heap2) ←
                           getLightListStateSet sources selected lm1 heap;
                         Ok (PushTraversePop stateset, <[this := lm2]> managers, heap2)).
  { unfold CullCallback_call. rewrite Hcb. simpl. unfold deref. rewrite Hthis. simpl.
    rewrite Hprepare. simpl. fold viewBound. rewrite Hcollect, truncateLights_take.
    fold selected. destruct (decide (length (getLights lm1) ≠ 0)) as [Hsome|Hnone].
    - destruct (decide (hits = [])) as [Hempty|Hhits].
      + rewrite decide_True; [done|]. unfold selected. by rewrite Hempty.
      + rewrite decide_False; [done|]. unfold selected. by destruct hits.
    - assert (Hnil : hits = []).
      { subst hits. unfold intersectingLights.
        replace (length (getLights lm1)) with 0 by lia. by rewrite seqZ_nil. }
      rewrite decide_True; [done|]. unfold selected. by rewrite Hnil. }
  split; [|split; [|split; [|split; [|split; [|split]]]]].
  - intros Hempty. by rewrite Hcall, decide_True.
  - intros Hsel. rewrite Hcall, decide_False by done.
    destruct (getLightListStateSet_total sources selected lm1 heap)
      as (stateset & lm2 & heap2 & Hget).
    { apply intersectingLights_valid. by eapply liveSources_same. }
    exists stateset, lm2, heap2. by rewrite Hget.
  - apply intersectingLights_sorted.
  - apply intersectingLights_spec.
  - intros i Hi. apply intersectingLights_spec. eapply elem_of_sublist; [done|].
    apply sublist_take.
  - intros Hfew i Hi. unfold selected. rewrite take_ge by done.
    by apply intersectingLights_spec.
  - intros Hmany. split; [unfold selected; rewrite length_take; lia|].
    apply prefix_take.
Qed.

(** ** Keys that coincide

    The key of the cache is a [size_t], a number below [2 ^ 64], and there
    are more sequences of eight indices below 257 than that: whatever
    [hash_combine] computes, two of them have the same key. *)

Lemma length_flat_map_const {A B} (f : A → list B) (l : list A) m :
  (∀ a, length (f a) = m) → length (flat_map f l) = length l * m.
Proof.
  intros Hf. induction l as [|a l IH]; simpl; [done|].
  rewrite length_app, Hf, IH. done.
Qed.

Lemma length_sequences n indices :
  length (sequences n indices) = length indices ^ n.
Proof.
  induction n as [|n IH]; [done|].
  cbn [sequences]. rewrite (length_flat_map_const _ _ (length indices ^ n)).
  - rewrite Nat.pow_succ_r'. done.
  - intros i. by rewrite length_fmap.
Qed.

Lemma elem_of_sequences n indices l :
  l ∈ sequences n indices ↔ length l = n ∧ Forall (λ i, i ∈ indices) l.
Proof.
  revert l. induction n as [|n IH]; intros l; cbn [sequences].
  - rewrite list_elem_of_singleton. split.
    + intros ->. done.
    + intros [Hlen _]. by destruct l.
  - rewrite list_elem_of_In, in_flat_map. setoid_rewrite <- list_elem_of_In.
    setoid_rewrite list_elem_of_fmap. split.
    + intros (i & Hi & l' & -> & Hl'). apply IH in Hl' as [Hlen Hall].
      split; [simpl; by f_equal|]. by constructor.
    + intros [Hlen Hall]. destruct l as [|i l']; [done|].
      apply Forall_cons in Hall as [Hi Hall]. exists i. split; [done|].
      exists l'. split; [done|]. apply IH. split; [simpl in Hlen; lia|done].
Qed.

Lemma NoDup_flat_map_cons (heads : list Z) (tails : list (list Z)) :
  NoDup heads → NoDup tails → NoDup (flat_map (λ i, (i ::.) <$> tails) heads).
Proof.
  intros Hheads Htails.
  induction Hheads as [|i rest Hfresh Hrest IH]; simpl; [constructor|].
  apply NoDup_app. split; [|split; [|done]].
  - apply NoDup_fmap_2; [|done]. by intros ?? [=].
  - intros l (l' & -> & _)%list_elem_of_fmap Hin.
    apply list_elem_of_In, in_flat_map in Hin as (j & Hj%list_elem_of_In & Hin).
    apply list_elem_of_In, list_elem_of_fmap in Hin as (l'' & [= -> ->] & _). done.
Qed.

Lemma NoDup_sequences n indices : NoDup indices → NoDup (sequences n indices).
Proof.
  intros Hindices. induction n as [|n IH]; cbn [sequences].
  - apply NoDup_singleton.
  - by apply NoDup_flat_map_cons.
Qed.

Lemma hash_LightList_range (lightList : list Z) :
  (∀ seed v, 0 ≤ hash_combine seed v < 2 ^ 64)%Z →
  (0 ≤ hash_LightList lightList < 2 ^ 64)%Z.
Proof.
  intros Hrange. unfold hash_LightList.
  induction lightList as [|v rest IH] using rev_ind; simpl; [lia|].
  rewrite foldl_app. apply Hrange.
Qed.

Lemma hash_LightList_collision :
  (∀ seed v, 0 ≤ hash_combine seed v < 2 ^ 64)%Z →
  ∃ lightList1 lightList2,
    lightList1 ≠ lightList2
    ∧ hash_LightList lightList1 = hash_LightList lightList2
    ∧ length lightList1 = 8 ∧ length lightList2 = 8
    ∧ Forall (λ i, 0 ≤ i < 257)%Z lightList1
    ∧ Forall (λ i, 0 ≤ i < 257)%Z lightList2.
Proof.
  intros Hrange.
  pose (all := sequences 8 (seqZ 0 257)).
  destruct (list_pigeonhole (hash_LightList <$> all) (seqZ 0 (2 ^ 64)))
    as (k1 & k2 & key & Hlt & Hk1 & Hk2).
  - intros key (l & -> & _)%list_elem_of_fmap. apply elem_of_seqZ.
    pose proof (hash_LightList_range l Hrange). lia.
  - rewrite length_fmap, length_seqZ. unfold all. rewrite length_sequences, length_seqZ.
    apply Nat2Z.inj_lt. rewrite Nat2Z.inj_pow, !Z2Nat.id by lia. lia.
  - apply list_lookup_fmap_Some in Hk1 as (l1 & -> & Hl1).
    apply list_lookup_fmap_Some in Hk2 as (l2 & Hkey & Hl2).
    exists l1, l2. split; [|split; [done|]].
    + intros <-. assert (k1 = k2); [|lia].
      eapply NoDup_lookup; [|done..]. apply NoDup_sequences, NoDup_seqZ.
    + apply list_elem_of_lookup_2, elem_of_sequences in Hl1 as [Hlen1 Hall1].
      apply list_elem_of_lookup_2, elem_of_sequences in Hl2 as [Hlen2 Hall2].
      split; [done|]. split; [done|].
      split; eapply Forall_impl; try done; intros i Hi%elem_of_seqZ; lia.
Qed.

Lemma validLightList_below sources (lights : list LightSourceTransform) lightList n :
  liveSources sources lights = true → Z.of_nat (length lights) = n →
  Forall (λ i, 0 ≤ i < n)%Z lightList →
  validLightList sources lights lightList = true.
Proof.
  intros Hlive Hn Hall. rewrite liveSources_spec in Hlive.
  unfold validLightList. apply forallb_forall. intros i Hi%list_elem_of_In.
  eapply Forall_forall in Hall; [|done].
  destruct (lookup_lt_is_Some_2 lights (Z.to_nat i)) as [l Hl]; [lia|].
  unfold validIndex, vector_at. rewrite decide_True, Hl by lia.
  apply bool_decide_eq_true, Hlive. by eapply list_elem_of_lookup_2.
Qed.

(** With 257 lights registered there are, whatever the hash function, two
    different sequences of eight indices for which two calls in a row return
    the same state set. *)
Lemma getLightListStateSet_shared_for_any_hash sources (lm : LightManager) heap :
  (∀ seed v, 0 ≤ hash_combine seed v < 2 ^ 64)%Z →
  length (mLights lm) = 257 →
  liveSources sources (mLights lm) = true →
  ∃ lightList1 lightList2 stateset,
    lightList1 ≠ lightList2
    ∧ length lightList1 = 8 ∧ length lightList2 = 8
    ∧ validLightList sources (mLights lm) lightList1 = true
    ∧ validLightList sources (mLights lm) lightList2 = true
    ∧ getLightListStateSetTwice sources lightList1 lightList2 lm heap
      = Ok (stateset, stateset).
Proof.
  intros Hrange Hlights Hlive.
  destruct (hash_LightList_collision Hrange)
    as (l1 & l2 & Hne & Hkey & Hlen1 & Hlen2 & Hall1 & Hall2).
  assert (Hvalid1 : validLightList sources (mLights lm) l1 = true).
  { eapply validLightList_below; [done| |done]. lia. }
  assert (Hvalid2 : validLightList sources (mLights lm) l2 = true).
  { eapply validLightList_below; [done| |done]. lia. }
  destruct (getLightListStateSet_total sources l1 lm heap Hvalid1)
    as (ptr & lm1 & heap1 & Hcall).
  exists l1, l2, ptr. do 5 (split; [done|]).
  unfold getLightListStateSetTwice. rewrite Hcall. simpl.
  apply getLightListStateSet_cached in Hcall. rewrite Hkey in Hcall.
  by rewrite (getLightListStateSet_hit _ _ _ _ _ Hcall).
Qed.

(** ** The collection hook *)

Lemma findLightManager_Some (managers : gmap NodePtr LightManager) nodePath m :
  findLightManager managers nodePath = Some m ↔ outermostManager managers nodePath m.
Proof.
  unfold outermostManager. induction nodePath as [|n rest IH]; simpl.
  - split; [done|]. intros (above & below & Hpath & _). by destruct above.
  - destruct (managers !! n) as [lm|] eqn:Hn.
    + split.
      * intros [= ->]. exists [], rest. split; [done|]. split; [by eexists|].
        intros n' Hn'. by apply elem_of_nil in Hn'.
      * intros ([|n' above] & below & Hpath & Hm & Habove); simplify_eq/=; [done|].
        rewrite Habove in Hn; [done|]. apply list_elem_of_here.
    + rewrite IH. split.
      * intros (above & below & -> & Hm & Habove). exists (n :: above), below.
        split; [done|]. split; [done|]. intros n' [->|Hn']%elem_of_cons; auto.
      * intros ([|n' above] & below & Hpath & Hm & Habove); simplify_eq/=.
        { rewrite Hn in Hm. by destruct Hm. }
        exists above, below. split; [done|]. split; [done|].
        intros n'' Hn''. apply Habove. by apply list_elem_of_further.
Qed.

Lemma findLightManager_None (managers : gmap NodePtr LightManager) nodePath :
  findLightManager managers nodePath = None
  ↔ ∀ n, n ∈ nodePath → managers !! n = None.
Proof.
  induction nodePath as [|n rest IH]; simpl.
  - split; [|done]. intros _ n Hn. by apply elem_of_nil in Hn.
  - destruct (managers !! n) as [lm|] eqn:Hn.
    + split; [done|]. intros Hall. rewrite Hall in Hn; [done|]. apply list_elem_of_here.
    + rewrite IH. split.
      * intros Hall n' [->|Hn']%elem_of_cons; auto.
      * intros Hall n' Hn'. apply Hall. by apply list_elem_of_further.
Qed.

(** C4, as amended. A run of the collection hook registers the entity, with
    the world transform of the current node path, with the registry that the
    callback has cached at an earlier run, whatever the path is now; a
    callback that has no registry cached takes the first [LightManager] of
    the node path, from the root on, which is the outermost enclosing
    registry, and caches it. *)
Theorem collect_registers_with_addressed_manager (cb : CollectLightCallback)
  (node : NodePtr) (transforms : Transforms) (nodePath : list NodePtr)
  (managers : gmap NodePtr LightManager) (m : NodePtr) (lm : LightManager) :
  addressedManager cb managers nodePath m →
  managers !! m = Some lm →
  CollectLightCallback_call cb node transforms nodePath managers
  = Ok ({| collect_mLightManager := Some m |},
        <[m := addLight node (computeLocalToWorld transforms nodePath) lm]> managers).
Proof.
  unfold addressedManager, CollectLightCallback_call. destruct cb as [[cached|]]; simpl.
  - intros -> Hm. unfold deref. by rewrite Hm.
  - intros Hfirst%findLightManager_Some Hm. rewrite Hfirst. simpl.
    unfold deref. by rewrite Hm.
Qed.

(** C8, as amended. When the callback has no registry cached: if no node of
    the node path is a [LightManager], the hook throws
    [std::runtime_error("can't find parent LightManager")], so that nothing
    is registered and no store changes; if some node of the path is one, the
    hook returns normally. *)
Theorem collect_throws_without_manager (cb : CollectLightCallback)
  (node : NodePtr) (transforms : Transforms) (nodePath : list NodePtr)
  (managers : gmap NodePtr LightManager) :
  collect_mLightManager cb = None →
  ((∀ n, n ∈ nodePath → managers !! n = None) →
   CollectLightCallback_call cb node transforms nodePath managers
   = Throw "can't find parent LightManager")
  ∧ ((∃ n, n ∈ nodePath ∧ is_Some (managers !! n)) →
     ∃ cb' managers',
       CollectLightCallback_call cb node transforms nodePath managers
       = Ok (cb', managers')).
Proof.
  intros Hnone. unfold CollectLightCallback_call. rewrite Hnone. split.
  - intros Hall%findLightManager_None. by rewrite Hall.
  - intros (n & Hn & Hlive).
    destruct (findLightManager managers nodePath) as [m|] eqn:Hfind.
    + apply findLightManager_Some in Hfind as Hfirst.
      destruct Hfirst as (_ & _ & _ & [lm Hm] & _).
      simpl. unfold deref. rewrite Hm. simpl. eauto.
    + rewrite findLightManager_None in Hfind. rewrite (Hfind n Hn) in Hlive.
      by destruct Hlive.
Qed.

(** ** The decoration pass *)

Lemma SceneGraph_children_ind (P : SceneGraph → Prop) :
  (∀ geode, P (Geode geode)) →
  (∀ self children, Forall P children → P (Group self children)) →
  ∀ node, P node.
Proof.
  intros Hgeode Hgroup. fix IH 1. intros [geode|self children].
  - apply Hgeode.
  - apply Hgroup. revert children. fix IHchildren 1.
    intros [|child children]; constructor; [apply IH|apply IHchildren].
Qed.

(** The visitor applies [apply_Geode] to the geodes in traversal order. *)
Lemma accept_geodes this parents node callbacks :
  accept this parents node callbacks
  = foldl (λ cbs geode, apply_Geode this parents geode cbs) callbacks (geodes node).
Proof.
  revert callbacks. induction node as [geode|self children IH] using SceneGraph_children_ind;
    intros callbacks; simpl; [done|].
  revert callbacks. induction IH as [|child children Hchild _ IHchildren];
    intros callbacks; simpl; [done|].
  by rewrite foldl_app, <- Hchild, IHchildren.
Qed.

Lemma apply_Geode_lookup this parents geode callbacks parent :
  default [] (apply_Geode this parents geode callbacks !! parent)
  = default [] (callbacks !! parent)
    ++ (if decide (head (parents geode) = Some parent)
        then [CullCallback_new this] else []).
Proof.
  unfold apply_Geode, addCullCallback. destruct (parents geode) as [|first rest]; simpl.
  - by rewrite app_nil_r.
  - destruct (decide (first = parent)) as [->|Hother].
    + by rewrite lookup_insert_eq, decide_True.
    + rewrite lookup_insert_ne, decide_False, app_nil_r by congruence. done.
Qed.

Lemma apply_Geode_other this parents geode callbacks parent :
  head (parents geode) ≠ Some parent →
  apply_Geode this parents geode callbacks !! parent = callbacks !! parent.
Proof.
  unfold apply_Geode, addCullCallback. destruct (parents geode) as [|first rest]; simpl.
  - done.
  - intros Hother. rewrite lookup_insert_ne; [done|congruence].
Qed.

Lemma decorateGeodes_lookup this parents graph callbacks parent :
  default [] (decorateGeodes this parents graph callbacks !! parent)
  = default [] (callbacks !! parent)
    ++ replicate (length (geodesBelow parents parent graph)) (CullCallback_new this).
Proof.
  unfold decorateGeodes, geodesBelow. rewrite accept_geodes.
  generalize (geodes graph) as gs. intros gs. revert callbacks.
  induction gs as [|geode gs IH]; intros callbacks; simpl.
  - by rewrite app_nil_r.
  - rewrite IH, apply_Geode_lookup, filter_cons.
    case_decide; simpl; by rewrite <- app_assoc.
Qed.

Lemma decorateGeodes_other this parents graph callbacks parent :
  geodesBelow parents parent graph = [] →
  decorateGeodes this parents graph callbacks !! parent = callbacks !! parent.
Proof.
  unfold decorateGeodes, geodesBelow. rewrite accept_geodes.
  generalize (geodes graph) as gs. intros gs. revert callbacks.
  induction gs as [|geode gs IH]; intros callbacks; simpl; [done|].
  rewrite filter_cons. case_decide as Hhead; [done|].
  intros Hnone. by rewrite IH, apply_Geode_other.
Qed.

Lemma update_decorated this parents graph (lm : LightManager) callbacks :
  mDecorated lm = true →
  mDecorated (update this parents graph lm callbacks).1 = true
  ∧ (update this parents graph lm callbacks).2 = callbacks.
Proof. intros Hdone. unfold update. simpl. by rewrite Hdone. Qed.

Lemma updateFrames_decorated this frames (lm : LightManager) callbacks :
  mDecorated lm = true →
  mDecorated (updateFrames this frames lm callbacks).1 = true
  ∧ (updateFrames this frames lm callbacks).2 = callbacks.
Proof.
  revert lm callbacks. induction frames as [|[parents graph] frames IH];
    intros lm callbacks Hdone; simpl; [done|].
  destruct (update this parents graph lm callbacks) as [lm' callbacks'] eqn:Hupdate.
  destruct (update_decorated this parents graph lm callbacks Hdone) as [Hflag Hsame].
  rewrite Hupdate in Hflag, Hsame. simpl in *. subst callbacks'. by apply IH.
Qed.

(** The calls of a frame leave the decoration flag alone. *)
Lemma runFrameOps_decorated sources ops (lm lm' : LightManager) heap heap' :
  runFrameOps sources ops (lm, heap) = Ok (lm', heap') → mDecorated lm' = mDecorated lm.
Proof. by intros (_ & _ & _ & Hsame & _)%runFrameOps_extends. Qed.

(** C9, as amended. For a registry whose decoration flag is clear, as
    [LightManager()] creates it, the first [update()] runs the decoration
    pass and sets the flag, and no later [update()] runs it again: after any
    number of further frames, whatever their scenes, the cull callbacks are
    those that the pass of the first frame left. That pass appends one
    callback of this registry to the first parent of every geode that the
    traversal below the registry meets: a geode without parents gives none,
    and a node that is the first parent of no geode keeps its callbacks.
    A registry that is copied from a decorated one starts with the flag set,
    and none of its updates runs the pass. *)
Theorem decoration_runs_once_on_first_update (this : NodePtr)
  (parents : NodePtr → list NodePtr) (graph : SceneGraph)
  (frames : list ((NodePtr → list NodePtr) * SceneGraph))
  (lm : LightManager) (callbacks : gmap NodePtr (list CullCallback)) :
  mDecorated lm = false →
  let after := updateFrames this ((parents, graph) :: frames) lm callbacks in
  mDecorated (update this parents graph lm callbacks).1 = true
  ∧ mDecorated after.1 = true
  ∧ after.2 = decorateGeodes this parents graph callbacks
  ∧ (∀ parent,
       default [] (after.2 !! parent)
       = default [] (callbacks !! parent)
         ++ replicate (length (geodesBelow parents parent graph)) (CullCallback_new this))
  ∧ (∀ geode parent others,
       geode ∈ geodes graph → parents geode = parent :: others →
       CullCallback_new this ∈ default [] (after.2 !! parent))
  ∧ (∀ parent,
       (∀ geode, geode ∈ geodes graph → head (parents geode) ≠ Some parent) →
       after.2 !! parent = callbacks !! parent)
  ∧ mDecorated LightManager_new = false
  ∧ (∀ original copied,
       mDecorated original = true →
       (updateFrames copied ((parents, graph) :: frames) (LightManager_copy original)
          callbacks).2 = callbacks).
Proof.
  intros Hfresh after.
  assert (Hfirst : update this parents graph lm callbacks
                   = ((update this parents graph lm callbacks).1,
                      decorateGeodes this parents graph callbacks)).
  { unfold update. simpl. by rewrite Hfresh. }
  assert (Hflag : mDecorated (update this parents graph lm callbacks).1 = true).
  { unfold update. simpl. by rewrite Hfresh. }
  assert (Hafter : mDecorated after.1 = true
                   ∧ after.2 = decorateGeodes this parents graph callbacks).
  { subst after. simpl. rewrite Hfirst. by apply updateFrames_decorated. }
  destruct Hafter as [Hdone Hcallbacks].
  split; [done|]. split; [done|]. split; [done|]. rewrite Hcallbacks.
  split; [apply decorateGeodes_lookup|].
  split; [|split; [|split; [done|]]].
  - intros geode parent others Hgeode Hparents. rewrite decorateGeodes_lookup.
    apply elem_of_app. right.
    assert (Hbelow : geode ∈ geodesBelow parents parent graph).
    { unfold geodesBelow. apply list_elem_of_filter. by rewrite Hparents. }
    destruct (geodesBelow parents parent graph); [by apply elem_of_nil in Hbelow|].
    simpl. apply list_elem_of_here.
  - intros parent Hnone. apply decorateGeodes_other.
    unfold geodesBelow.
    destruct (filter _ (geodes graph)) as [|geode rest] eqn:Hfilter; [done|].
    assert (Hin : geode ∈ filter (λ g, head (parents g) = Some parent) (geodes graph)).
    { rewrite Hfilter. apply list_elem_of_here. }
    apply list_elem_of_filter in Hin as [Hhead Hgeode]. by destruct (Hnone geode Hgeode).
  - intros original copied Hdecorated. by apply updateFrames_decorated.
Qed.

(** * Further properties of the hooks and of the registry *)

(** ** The cull callback *)

(** What a run of the cull callback amounts to, once the registry has its
    view-space bounds. *)
Lemma CullCallback_call_selection (cb : CullCallback) this sources cam modelView
  nodeBound (managers : gmap NodePtr LightManager) heap (lm lm1 : LightManager) :
  cull_mLightManager cb = Some this →
  managers !! this = Some lm →
  prepareForCamera sources cam lm = Ok lm1 →
  (Z.of_nat (length (mLights lm1)) ≤ Ints.int_range)%Z →
  CullCallback_call cb sources cam modelView nodeBound managers heap
  = let selected :=
      take 8 (intersectingLights (transformBoundingSphere modelView nodeBound)
                                 (getLights lm1)) in
    if decide (selected = [])
    then Ok (TraverseOnly, <[this := lm1]> managers, heap)
    else '(stateset, lm2, heap2) ← getLightListStateSet sources selected lm1 heap;
         Ok (PushTraversePop stateset, <[this := lm2]> managers, heap2).
Proof.
  intros Hcb Hthis Hprepare Hfit. cbv zeta.
  unfold CullCallback_call. rewrite Hcb. simpl. unfold deref. rewrite Hthis. simpl.
  rewrite Hprepare. simpl.
  rewrite collectLights_intersecting, truncateLights_take by done.
  set (hits := intersectingLights _ _).
  destruct (decide (length (getLights lm1) ≠ 0)) as [Hsome|Hnone].
  - destruct (decide (hits = [])) as [Hempty|Hhits].
    + rewrite decide_True; [done|]. by rewrite Hempty.
    + rewrite decide_False; [done|]. by destruct hits.
  - assert (Hnil : hits = []).
    { subst hits. unfold intersectingLights.
      replace (length (getLights lm1)) with 0 by lia. by rewrite seqZ_nil. }
    rewrite decide_True; [done|]. by rewrite Hnil.
Qed.

(** X1. With no light registered a run of the cull callback only traverses:
    it builds no state set and leaves the cache alone. It still marks the
    view-space bounds as computed. *)
Theorem cull_without_lights_only_traverses (cb : CullCallback) (this : NodePtr)
  (sources : gmap NodePtr LightSource) (cam : Camera) (modelView : Matrix)
  (nodeBound : BoundingSphere) (managers : gmap NodePtr LightManager)
  (heap : list StateSet) (lm : LightManager) :
  cull_mLightManager cb = Some this →
  managers !! this = Some lm →
  mLights lm = [] →
  CullCallback_call cb sources cam modelView nodeBound managers heap
  = Ok (TraverseOnly,
        <[this := {| mLights := []; mLightsInViewSpace := true;
                     mDecorated := mDecorated lm;
                     mStateSetCache := mStateSetCache lm |}]> managers,
        heap).
Proof.
  intros Hcb Hthis Hnone.
  unfold CullCallback_call. rewrite Hcb. simpl. unfold deref. rewrite Hthis. simpl.
  unfold prepareForCamera. destruct lm as [lights inView decorated cache].
  simpl in *. subst lights. by destruct inView.
Qed.

Lemma fillStateSet_filled sources (lights : list LightSourceTransform)
  (lightList : list Z) (stateset : StateSet) :
  (Z.of_nat (length lightList) ≤ Ints.int_range)%Z →
  fillStateSet sources lights 0 lightList StateSet_new = Ok stateset →
  (∀ slot, is_Some (attributeList stateset !! slot)
           ↔ (0 ≤ slot < Z.of_nat (length lightList))%Z)
  ∧ (∀ mode, is_Some (modeList stateset !! mode)
             ↔ (GL_LIGHT0 ≤ mode < GL_LIGHT0 + Z.of_nat (length lightList))%Z).
Proof.
  intros Hfit Hfill. apply fillStateSet_slots in Hfill as [Hin Hout]; [|lia..].
  split.
  - intros slot. split.
    + intros Hsome. destruct (decide (0 ≤ slot < Z.of_nat (length lightList))%Z);
        [done|]. destruct (Hout slot) as [Hattr _]; [lia|].
      rewrite Hattr in Hsome. simpl in Hsome. rewrite lookup_empty in Hsome.
      by destruct Hsome.
    + intros Hslot.
      destruct (lookup_lt_is_Some_2 lightList (Z.to_nat slot)) as [idx Hidx]; [lia|].
      destruct (Hin _ _ Hidx) as (l & lightSource & _ & _ & Hattr & _).
      rewrite Z.add_0_l, Z2Nat.id in Hattr by lia. by rewrite Hattr.
  - intros mode. replace mode with (GL_LIGHT0 + (mode - GL_LIGHT0))%Z at 1 by lia.
    split.
    + intros Hsome.
      destruct (decide (0 ≤ mode - GL_LIGHT0 < Z.of_nat (length lightList))%Z);
        [lia|]. destruct (Hout (mode - GL_LIGHT0)%Z) as [_ Hmode]; [lia|].
      rewrite Hmode in Hsome. simpl in Hsome. rewrite lookup_empty in Hsome.
      by destruct Hsome.
    + intros Hmode.
      destruct (lookup_lt_is_Some_2 lightList (Z.to_nat (mode - GL_LIGHT0)))
        as [idx Hidx]; [lia|].
      destruct (Hin _ _ Hidx) as (l & lightSource & _ & _ & _ & Hon).
      rewrite Z.add_0_l, Z2Nat.id in Hon by lia. by rewrite Hon.
Qed.

(** X2. A state set that the cull callback has built holds at most eight
    lights, in the slots 0 up to the number of lights selected, and switches
    on the modes [GL_LIGHT0] up to [GL_LIGHT0 + 7] at most: when the callback
    selects lights whose key is not cached, it pushes a new state set whose
    filled slots and modes are exactly those of the selection. *)
Theorem cull_state_set_within_capacity (cb : CullCallback) (this : NodePtr)
  (sources : gmap NodePtr LightSource) (cam : Camera) (modelView : Matrix)
  (nodeBound : BoundingSphere) (managers : gmap NodePtr LightManager)
  (heap : list StateSet) (lm lm1 : LightManager) :
  cull_mLightManager cb = Some this →
  managers !! this = Some lm →
  prepareForCamera sources cam lm = Ok lm1 →
  liveSources sources (mLights lm1) = true →
  (Z.of_nat (length (mLights lm1)) ≤ Ints.int_range)%Z →
  let selected :=
    take 8 (intersectingLights (transformBoundingSphere modelView nodeBound)
                               (getLights lm1)) in
  selected ≠ [] →
  mStateSetCache lm1 !! hash_LightList selected = None →
  ∃ lm2 stateset,
    CullCallback_call cb sources cam modelView nodeBound managers heap
    = Ok (PushTraversePop (length heap), <[this := lm2]> managers, heap ++ [stateset])
    ∧ length selected ≤ 8
    ∧ (∀ slot, is_Some (attributeList stateset !! slot)
               ↔ (0 ≤ slot < Z.of_nat (length selected))%Z)
    ∧ (∀ mode, is_Some (modeList stateset !! mode)
               ↔ (GL_LIGHT0 ≤ mode < GL_LIGHT0 + Z.of_nat (length selected))%Z).
Proof.
  intros Hcb Hthis Hprepare Hlive Hfit selected Hsome Hmiss.
  assert (Hlen : length selected ≤ 8).
  { unfold selected. rewrite length_take. lia. }
  destruct (fillStateSet_total sources (mLights lm1) 0 selected StateSet_new)
    as [stateset Hfill].
  { by apply intersectingLights_valid. }
  eexists _, stateset. split; [|split; [done|]].
  - rewrite (CullCallback_call_selection _ _ _ _ _ _ _ _ _ _ Hcb Hthis Hprepare Hfit).
    cbv zeta. fold selected. rewrite decide_False by done.
    by rewrite (getLightListStateSet_miss _ _ _ _ _ Hmiss Hfill).
  - apply (fillStateSet_filled sources (mLights lm1)); [|done].
    unfold Ints.int_range. lia.
Qed.


(** ** The cache within a frame *)

(** X4. Between two resets the cache only grows and state sets stay as they
    were built: whatever calls the frame makes, every entry of the cache is
    still there with the same state set, and every state set allocated is
    still at its address, unchanged. *)
Theorem frame_keeps_cache_and_state_sets (sources : gmap NodePtr LightSource)
  (ops : list FrameOp) (lm lm' : LightManager) (heap heap' : list StateSet) :
  runFrameOps sources ops (lm, heap) = Ok (lm', heap') →
  (∀ key ptr, mStateSetCache lm !! key = Some ptr →
              mStateSetCache lm' !! key = Some ptr)
  ∧ (∀ ptr stateset, heap !! ptr = Some stateset → heap' !! ptr = Some stateset).
Proof.
  intros (Hkeep & Hprefix & _)%runFrameOps_extends. simpl in *.
  split; [done|]. intros ptr stateset Hptr. by eapply prefix_lookup_Some.
Qed.

Lemma runFrameOp_allocations sources op (lm lm' : LightManager) heap heap' :
  runFrameOp sources op (lm, heap) = Ok (lm', heap') →
  size (mStateSetCache lm') + length heap = size (mStateSetCache lm) + length heap'.
Proof.
  destruct op as [lightSource worldMat|cam|lightList]; simpl.
  - by intros [= <- <-].
  - unfold prepareForCamera. destruct (mLightsInViewSpace lm); simpl.
    + by intros [= <- <-].
    + destruct (viewSpaceBounds sources cam (mLights lm)); try done.
      simpl. by intros [= <- <-].
  - destruct (getLightListStateSet sources lightList lm heap)
      as [[[ptr lm1] heap1]| |] eqn:Hcall; try done.
    simpl. intros [= <- <-].
    apply getLightListStateSet_inv in Hcall
      as [(_ & -> & ->)|(Hmiss & stateset & _ & -> & -> & _ & _ & _ & ->)]; [done|].
    rewrite map_size_insert_None, length_app by done. simpl. lia.
Qed.

Lemma runFrameOp_new_entries sources op (lm lm' : LightManager) heap heap' :
  runFrameOp sources op (lm, heap) = Ok (lm', heap') →
  length heap ≤ length heap'
  ∧ ∀ key ptr, mStateSetCache lm' !! key = Some ptr →
               mStateSetCache lm !! key = Some ptr
               ∨ length heap ≤ ptr < length heap'.
Proof.
  destruct op as [lightSource worldMat|cam|lightList]; simpl.
  - intros [= <- <-]. simpl. auto.
  - unfold prepareForCamera. destruct (mLightsInViewSpace lm); simpl.
    + intros [= <- <-]. auto.
    + destruct (viewSpaceBounds sources cam (mLights lm)); try done.
      simpl. intros [= <- <-]. simpl. auto.
  - destruct (getLightListStateSet sources lightList lm heap)
      as [[[ptr0 lm1] heap1]| |] eqn:Hcall; try done.
    simpl. intros [= <- <-].
    apply getLightListStateSet_inv in Hcall
      as [(_ & -> & ->)|(Hmiss & stateset & _ & -> & -> & _ & _ & _ & ->)]; [auto|].
    rewrite length_app. simpl. split; [lia|]. intros key ptr.
    rewrite lookup_insert. case_decide; [intros [= <-]; right; lia|auto].
Qed.

(** X5. One state set per key. Over the calls of a frame the cache gains
    exactly as many entries as state sets are allocated, and every entry
    that is new holds the address of one of these state sets: after a reset,
    which empties the cache, the size of the cache is the number of state
    sets built since, and the cached addresses are theirs. *)
Theorem frame_allocates_one_state_set_per_key (sources : gmap NodePtr LightSource)
  (ops : list FrameOp) (lm lm' : LightManager) (heap heap' : list StateSet) :
  runFrameOps sources ops (lm, heap) = Ok (lm', heap') →
  size (mStateSetCache lm') + length heap = size (mStateSetCache lm) + length heap'
  ∧ ∀ key ptr, mStateSetCache lm' !! key = Some ptr →
               mStateSetCache lm !! key = Some ptr
               ∨ length heap ≤ ptr < length heap'.
Proof.
  revert lm heap. induction ops as [|op rest IH]; intros lm heap; simpl.
  - intros [= <- <-]. auto.
  - destruct (runFrameOp sources op (lm, heap)) as [[lm1 heap1]| |] eqn:Hop; try done.
    simpl. intros Hrest.
    pose proof (runFrameOp_allocations _ _ _ _ _ _ Hop) as Hone.
    destruct (runFrameOp_new_entries _ _ _ _ _ _ Hop) as [Hgrow1 Hnew1].
    destruct (IH _ _ Hrest) as [Hcount Hnew].
    pose proof (runFrameOps_extends _ _ _ _ Hrest) as (_ & Hgrow%prefix_length & _).
    simpl in Hgrow. split; [lia|]. intros key ptr Hptr.
    destruct (Hnew _ _ Hptr) as [Hmid|Hlate]; [|right; lia].
    destruct (Hnew1 _ _ Hmid) as [Hold|Hearly]; [by left|right; lia].
Qed.

Lemma vector_at_never_throws {A} (v : list A) i what : vector_at v i ≠ Throw what.
Proof. unfold vector_at. case_decide; [|done]. by destruct (v !! Z.to_nat i). Qed.

Lemma fillStateSet_invalid sources (lights : list LightSourceTransform) i lightList
  stateset :
  validLightList sources lights lightList = false →
  fillStateSet sources lights i lightList stateset = Undefined.
Proof.
  revert i stateset.
  induction lightList as [|lightIndex rest IH]; intros i stateset Hinvalid; [done|].
  simpl in Hinvalid. simpl.
  destruct (vector_at lights lightIndex) as [l|what|] eqn:Hat; simpl; [| |done].
  - unfold deref.
    destruct (sources !! mLightSource l) as [lightSource|] eqn:Hsrc; simpl; [|done].
    apply IH. apply andb_false_iff in Hinvalid as [Hhead|Hrest]; [|done].
    unfold validIndex in Hhead. rewrite Hat in Hhead.
    apply bool_decide_eq_false in Hhead. destruct Hhead. by eexists.
  - by apply vector_at_never_throws in Hat.
Qed.

(** X6. The indices of the sequence are not checked. When the key of the
    sequence is not cached and some index is outside the light sequence, or
    selects a record whose light source is gone, the call has undefined
    behaviour; it throws nothing and returns nothing. *)
Theorem getLightListStateSet_unchecked_index (sources : gmap NodePtr LightSource)
  (lightList : list Z) (lm : LightManager) (heap : list StateSet) :
  mStateSetCache lm !! hash_LightList lightList = None →
  validLightList sources (mLights lm) lightList = false →
  getLightListStateSet sources lightList lm heap = Undefined.
Proof.
  intros Hmiss Hinvalid. unfold getLightListStateSet. rewrite Hmiss.
  by rewrite fillStateSet_invalid.
Qed.

(** ** Registration and view-space bounds *)

Lemma collectLights_app nodeBound i (lights1 lights2 : list LightSourceTransform) :
  collectLights nodeBound i (lights1 ++ lights2)
  = collectLights nodeBound i lights1
    ++ collectLights nodeBound (i + Z.of_nat (length lights1)) lights2.
Proof.
  revert i. induction lights1 as [|l rest IH]; intros i; simpl.
  - by rewrite Z.add_0_r.
  - rewrite IH. replace (i + 1 + Z.of_nat (length rest))%Z
      with (i + Z.pos (Pos.of_succ_nat (length rest)))%Z by lia.
    by destruct (sphere_intersects (mViewBound l) nodeBound).
Qed.

Lemma addLights_lights calls (lm : LightManager) :
  mLights (addLights calls lm)
  = mLights lm
    ++ ((λ call : NodePtr * Matrix,
           {| mLightSource := call.1; mWorldMatrix := call.2;
              mViewBound := sphere_default |}) <$> calls)
  ∧ mLightsInViewSpace (addLights calls lm) = mLightsInViewSpace lm
  ∧ mStateSetCache (addLights calls lm) = mStateSetCache lm
  ∧ mDecorated (addLights calls lm) = mDecorated lm.
Proof.
  induction calls as [|[lightSource worldMat] calls IH] using rev_ind.
  - simpl. by rewrite app_nil_r.
  - rewrite addLights_snoc. destruct IH as (Hlights & Hflag & Hcache & Hdec).
    simpl. rewrite Hlights, fmap_app, app_assoc. done.
Qed.

Lemma collectLights_default nodeBound i (calls : list (NodePtr * Matrix)) :
  (∀ sphere, sphere_intersects sphere_default sphere = false) →
  collectLights nodeBound i
    ((λ call : NodePtr * Matrix,
        {| mLightSource := call.1; mWorldMatrix := call.2;
           mViewBound := sphere_default |}) <$> calls) = [].
Proof.
  intros Hdefault. revert i. induction calls as [|call rest IH]; intros i; [done|].
  rewrite fmap_cons. simpl. by rewrite Hdefault.
Qed.

(** X7. A light that is registered after the view-space bounds of the frame
    are computed is not seen by the cull callbacks of that frame. Its record
    keeps the default bounding sphere, because [prepareForCamera] does
    nothing any more; so, as a default sphere intersects nothing, the lights
    collected for a node are the same as without the late registrations. *)
Theorem late_registration_is_not_collected (sources : gmap NodePtr LightSource)
  (cam : Camera) (calls : list (NodePtr * Matrix)) (lm : LightManager)
  (nodeBound : BoundingSphere) :
  (∀ sphere, sphere_intersects sphere_default sphere = false) →
  mLightsInViewSpace lm = true →
  prepareForCamera sources cam (addLights calls lm) = Ok (addLights calls lm)
  ∧ collectLights nodeBound 0 (getLights (addLights calls lm))
    = collectLights nodeBound 0 (getLights lm).
Proof.
  intros Hdefault Hflag.
  destruct (addLights_lights calls lm) as (Hlights & Hflag' & _).
  split.
  - unfold prepareForCamera. by rewrite Hflag', Hflag.
  - unfold getLights. rewrite Hlights, collectLights_app.
    by rewrite collectLights_default, app_nil_r.
Qed.

(** X8. A reset forgets the frame. Whatever calls a frame has made since the
    last reset, the next [update()] brings the registry to the state that
    the last reset had left, and attaches no callback: the lights, the
    indices and the cache of a frame do not reach the next frame. *)
Theorem update_forgets_frame (sources : gmap NodePtr LightSource) (this : NodePtr)
  (parents parents' : NodePtr → list NodePtr) (graph graph' : SceneGraph)
  (ops : list FrameOp) (lm lm' : LightManager) (heap heap' : list StateSet)
  (callbacks callbacks' : gmap NodePtr (list CullCallback)) :
  runFrameOps sources ops ((update this parents graph lm callbacks).1, heap)
  = Ok (lm', heap') →
  update this parents' graph' lm' callbacks'
  = ((update this parents graph lm callbacks).1, callbacks').
Proof.
  intros Hsame%runFrameOps_decorated.
  assert (Hdone : mDecorated (update this parents graph lm callbacks).1 = true).
  { unfold update. simpl. by destruct (mDecorated lm). }
  rewrite Hdone in Hsame. unfold update at 1. simpl. rewrite Hsame. simpl.
  f_equal. unfold update. simpl. by destruct (mDecorated lm).
Qed.

Lemma viewSpaceBounds_lookup sources cam (lights lights' : list LightSourceTransform)
  i l lightSource :
  viewSpaceBounds sources cam lights = Ok lights' →
  lights !! i = Some l →
  sources !! mLightSource l = Some lightSource →
  lights' !! i
  = Some {| mLightSource := mLightSource l; mWorldMatrix := mWorldMatrix l;
            mViewBound :=
              transformBoundingSphere
                (matrix_mult (mWorldMatrix l) (camera_getViewMatrix cam))
                (sphere_at_origin (ls_radius lightSource)) |}.
Proof.
  revert lights' i. induction lights as [|l0 rest IH]; intros lights' i Hrun Hi Hsrc;
    [done|]. simpl in Hrun. unfold viewSpaceBound, deref in Hrun.
  destruct (sources !! mLightSource l0) as [lightSource0|] eqn:Hsrc0; try done.
  simpl in Hrun.
  destruct (viewSpaceBounds sources cam rest) as [rest'| |] eqn:Hrest; try done.
  simpl in Hrun. injection Hrun as <-.
  destruct i as [|i]; simpl in *.
  - injection Hi as ->. rewrite Hsrc in Hsrc0. by injection Hsrc0 as ->.
  - by eapply IH.
Qed.

(** X10. The first [prepareForCamera] of a frame gives every record its
    view-space bound: the sphere at the origin with the radius of the light
    source, transformed by the world matrix of the record times the view
    matrix of the camera. It keeps the number and the order of the records,
    their light sources and world matrices, and the cache. *)
Theorem prepareForCamera_computes_bounds (sources : gmap NodePtr LightSource)
  (cam : Camera) (lm : LightManager) :
  mLightsInViewSpace lm = false →
  liveSources sources (mLights lm) = true →
  ∃ lm1,
    prepareForCamera sources cam lm = Ok lm1
    ∧ mLightsInViewSpace lm1 = true
    ∧ mStateSetCache lm1 = mStateSetCache lm
    ∧ length (mLights lm1) = length (mLights lm)
    ∧ ∀ i l, mLights lm !! i = Some l →
        ∃ lightSource,
          sources !! mLightSource l = Some lightSource
          ∧ mLights lm1 !! i
            = Some {| mLightSource := mLightSource l; mWorldMatrix := mWorldMatrix l;
                      mViewBound :=
                        transformBoundingSphere
                          (matrix_mult (mWorldMatrix l) (camera_getViewMatrix cam))
                          (sphere_at_origin (ls_radius lightSource)) |}.
Proof.
  intros Hflag Hlive.
  destruct (viewSpaceBounds_total sources cam _ Hlive) as (lights' & Hrun & Hsame).
  eexists. split; [unfold prepareForCamera; by rewrite Hflag, Hrun|]. simpl.
  split; [done|]. split; [done|].
  split; [by eapply viewSpaceBounds_length|].
  intros i l Hi. rewrite liveSources_spec in Hlive.
  destruct (Hlive l) as [lightSource Hsrc]; [by eapply list_elem_of_lookup_2|].
  exists lightSource. split; [done|]. by eapply viewSpaceBounds_lookup.
Qed.



(** ** Runs of the collection hook *)

Lemma CollectLightCallback_call_cached node transforms nodePath
  (managers : gmap NodePtr LightManager) m (lm : LightManager) :
  managers !! m = Some lm →
  CollectLightCallback_call {| collect_mLightManager := Some m |} node transforms
    nodePath managers
  = Ok ({| collect_mLightManager := Some m |},
        <[m := addLight node (computeLocalToWorld transforms nodePath) lm]> managers).
Proof. intros Hm. unfold CollectLightCallback_call. simpl. unfold deref. by rewrite Hm. Qed.

Lemma collectRuns_cached runs (managers : gmap NodePtr LightManager) m
  (lm : LightManager) :
  managers !! m = Some lm →
  collectRuns {| collect_mLightManager := Some m |} runs managers
  = Ok ({| collect_mLightManager := Some m |},
        <[m := addLights (runRegistrations runs) lm]> managers).
Proof.
  revert managers lm. induction runs as [|[[node transforms] nodePath] rest IH];
    intros managers lm Hm; simpl.
  - by rewrite insert_id.
  - rewrite (CollectLightCallback_call_cached _ _ _ _ _ _ Hm). simpl.
    rewrite (IH _ (addLight node (computeLocalToWorld transforms nodePath) lm))
      by apply lookup_insert_eq.
    by rewrite insert_insert_eq.
Qed.

(** X9. One callback object, one registry. However often a callback runs,
    for whatever light entities and on whatever node paths, all its
    registrations go, in the order of the runs, to the single registry that
    its first run addresses - the one it has cached or else the first
    [LightManager] of the node path of that first run - and no other
    registry changes. *)
Theorem collect_runs_register_with_one_manager (cb : CollectLightCallback)
  (node : NodePtr) (transforms : Transforms) (nodePath : list NodePtr)
  (runs : list (NodePtr * Transforms * list NodePtr))
  (managers : gmap NodePtr LightManager) (m : NodePtr) (lm : LightManager) :
  addressedManager cb managers nodePath m →
  managers !! m = Some lm →
  collectRuns cb ((node, transforms, nodePath) :: runs) managers
  = Ok ({| collect_mLightManager := Some m |},
        <[m := addLights (runRegistrations ((node, transforms, nodePath) :: runs)) lm]>
          managers).
Proof.
  intros Haddressed Hm.
  assert (Hfirst : CollectLightCallback_call cb node transforms nodePath managers
                   = Ok ({| collect_mLightManager := Some m |},
                         <[m := addLight node (computeLocalToWorld transforms nodePath)
                                  lm]> managers)).
  { unfold addressedManager in Haddressed. destruct cb as [[cached|]]; simpl in *.
    - subst cached. by apply CollectLightCallback_call_cached.
    - apply findLightManager_Some in Haddressed.
      unfold CollectLightCallback_call. simpl. rewrite Haddressed. simpl.
      unfold deref. by rewrite Hm. }
  cbn [collectRuns]. rewrite Hfirst. simpl.
  rewrite (collectRuns_cached _ _ _
             (addLight node (computeLocalToWorld transforms nodePath) lm))
    by apply lookup_insert_eq.
  by rewrite insert_insert_eq.
Qed.

(** ** The light state attribute *)

Lemma LightStateAttribute_apply_state (light : Light) (state : State) :
  LightStateAttribute_apply light state
  = {| modelViewMatrix := modelViewMatrix state;
       initialViewMatrix := initialViewMatrix state;
       appliedLights := <[light_num light := (light, initialViewMatrix state)]>
                          (appliedLights state);
       globalDefaultAttributes := <[light_num light := light]>
                                    (globalDefaultAttributes state) |}.
Proof. done. Qed.

Lemma applyLights_other (lights : list Light) (state : State) n :
  n ∉ light_num <$> lights →
  appliedLights (applyLights lights state) !! n = appliedLights state !! n.
Proof.
  revert state. induction lights as [|light rest IH]; intros state Hfresh; [done|].
  rewrite fmap_cons, not_elem_of_cons in Hfresh. destruct Hfresh as [Hne Hrest].
  unfold applyLights in *. simpl. rewrite IH by done.
  simpl. by rewrite lookup_insert_ne.
Qed.

(** X12. A light state attribute is applied in world space. Applying the
    lights of a list one after the other leaves the model-view matrix of the
    state as it was found, and hands every light to the pipeline under the
    initial view matrix, never under the model-view matrix of the node being
    drawn; with light numbers that differ, every light of the list ends up
    in its slot. *)
Theorem applyLights_under_initial_view (lights : list Light) (state : State) :
  modelViewMatrix (applyLights lights state) = modelViewMatrix state
  ∧ initialViewMatrix (applyLights lights state) = initialViewMatrix state
  ∧ (∀ n light matrix,
       appliedLights (applyLights lights state) !! n = Some (light, matrix) →
       appliedLights state !! n = Some (light, matrix)
       ∨ (light ∈ lights ∧ light_num light = n ∧ matrix = initialViewMatrix state))
  ∧ (NoDup (light_num <$> lights) →
     ∀ light, light ∈ lights →
       appliedLights (applyLights lights state) !! light_num light
       = Some (light, initialViewMatrix state)).
Proof.
  revert state. induction lights as [|light0 rest IH]; intros state.
  - split; [done|]. split; [done|]. split; [by left|].
    intros _ light Hin. by apply elem_of_nil in Hin.
  - destruct (IH (LightStateAttribute_apply light0 state))
      as (Hmv & Hiv & Hsound & Hcomplete).
    change (applyLights (light0 :: rest) state)
      with (applyLights rest (LightStateAttribute_apply light0 state)).
    split; [by rewrite Hmv|]. split; [by rewrite Hiv|]. split.
    + intros n light matrix Hn. destruct (Hsound _ _ _ Hn) as [Hold|(Hin & Hnum & ->)].
      * rewrite LightStateAttribute_apply_state in Hold. simpl in Hold.
        rewrite lookup_insert in Hold. case_decide as Hslot.
        -- injection Hold as <- <-. right. split; [apply list_elem_of_here|done].
        -- by left.
      * right. split; [by apply list_elem_of_further|done].
    + rewrite fmap_cons. intros [Hfresh Hnodup]%NoDup_cons light [->|Hin]%elem_of_cons.
      * rewrite applyLights_other by done.
        rewrite LightStateAttribute_apply_state. simpl. apply lookup_insert_eq.
      * by rewrite Hcomplete.
Qed.

(** ** What a run of the cull callback leaves alone *)

(** X13. A run of the cull callback works on its own registry only, and
    registers and drops nothing: every other registry is as before, the
    records of its registry keep their number, order, light sources and
    world matrices, the decoration flag is kept, and the state sets that
    were allocated are unchanged. *)
Theorem cull_touches_only_its_registry (cb : CullCallback) (this : NodePtr)
  (sources : gmap NodePtr LightSource) (cam : Camera) (modelView : Matrix)
  (nodeBound : BoundingSphere) (managers managers' : gmap NodePtr LightManager)
  (heap heap' : list StateSet) (action : CullAction) :
  cull_mLightManager cb = Some this →
  CullCallback_call cb sources cam modelView nodeBound managers heap
  = Ok (action, managers', heap') →
  (∀ other, other ≠ this → managers' !! other = managers !! other)
  ∧ heap `prefix_of` heap'
  ∧ ∃ lm lm',
      managers !! this = Some lm ∧ managers' !! this = Some lm'
      ∧ registration <$> getLights lm' = registration <$> getLights lm
      ∧ mDecorated lm' = mDecorated lm.
Proof.
  intros Hcb Hcall. unfold CullCallback_call in Hcall. rewrite Hcb in Hcall.
  simpl in Hcall. unfold deref in Hcall.
  destruct (managers !! this) as [lm|] eqn:Hthis; [|done]. simpl in Hcall.
  destruct (prepareForCamera sources cam lm) as [lm1| |] eqn:Hprepare; try done.
  simpl in Hcall.
  assert (Hend : ∃ lm2 ops, managers' = <[this := lm2]> managers
                            ∧ registrations ops = []
                            ∧ runFrameOps sources ops (lm, heap) = Ok (lm2, heap')).
  { destruct (decide (length (getLights lm1) ≠ 0));
      [destruct (decide (collectLights (transformBoundingSphere modelView nodeBound)
                           0 (getLights lm1) = []))|].
    - injection Hcall as <- <- <-. exists lm1, [OpPrepareForCamera cam].
      simpl. by rewrite Hprepare.
    - destruct (getLightListStateSet sources _ lm1 heap)
        as [[[stateset lm2] heap2]| |] eqn:Hget; try done.
      simpl in Hcall. injection Hcall as <- <- <-.
      eexists lm2, [OpPrepareForCamera cam; OpGetLightListStateSet _].
      simpl. rewrite Hprepare. simpl. by rewrite Hget.
    - injection Hcall as <- <- <-. exists lm1, [OpPrepareForCamera cam].
      simpl. by rewrite Hprepare. }
  destruct Hend as (lm2 & ops & -> & Hnone & Hops).
  split; [intros other Hother; by rewrite lookup_insert_ne|].
  pose proof (runFrameOps_extends _ _ _ _ Hops) as (_ & Hprefix & _ & Hdec & _).
  split; [done|]. exists lm, lm2. split; [done|]. split; [apply lookup_insert_eq|].
  split; [|done].
  by rewrite (runFrameOps_registrations _ _ _ _ _ _ Hops), Hnone, app_nil_r.
Qed.

(** ** Nested registries *)

(** X14. A registry below another registry gets no lights. When a light
    entity lies below two registries, the first run of its callback
    registers it with the outer one, and the inner one stays without lights;
    a cull callback of the inner registry then only traverses, whatever the
    node is: the nodes decorated by the inner registry are not lit through
    it. *)
Theorem nested_registry_lights_nothing (cb : CullCallback) (node : NodePtr)
  (transforms : Transforms) (nodePath : list NodePtr)
  (managers : gmap NodePtr LightManager) (outer inner : NodePtr)
  (lmOuter lmInner : LightManager) (sources : gmap NodePtr LightSource)
  (cam : Camera) (modelView : Matrix) (nodeBound : BoundingSphere)
  (heap : list StateSet) :
  outermostManager managers nodePath outer →
  inner ≠ outer →
  managers !! outer = Some lmOuter →
  managers !! inner = Some lmInner →
  mLights lmInner = [] →
  cull_mLightManager cb = Some inner →
  ∃ managers',
    CollectLightCallback_call CollectLightCallback_new node transforms nodePath managers
    = Ok ({| collect_mLightManager := Some outer |}, managers')
    ∧ getLights <$> managers' !! inner = Some []
    ∧ ∃ managers'',
        CullCallback_call cb sources cam modelView nodeBound managers' heap
        = Ok (TraverseOnly, managers'', heap)
        ∧ getLights <$> managers'' !! inner = Some [].
Proof.
  intros Houter%findLightManager_Some Hne Hmo Hmi Hnone Hcb.
  eexists. split.
  { unfold CollectLightCallback_call. simpl. rewrite Houter. simpl.
    unfold deref. by rewrite Hmo. }
  assert (Hinner : (<[outer := addLight node (computeLocalToWorld transforms nodePath)
                               lmOuter]> managers) !! inner = Some lmInner).
  { by rewrite lookup_insert_ne. }
  split; [rewrite Hinner; simpl; unfold getLights; by rewrite Hnone|].
  exists (<[inner := {| mLights := []; mLightsInViewSpace := true;
                        mDecorated := mDecorated lmInner;
                        mStateSetCache := mStateSetCache lmInner |}]>
            (<[outer := addLight node (computeLocalToWorld transforms nodePath)
                          lmOuter]> managers)).
  split; [|by rewrite lookup_insert_eq].
  unfold CullCallback_call. rewrite Hcb. simpl. unfold deref. rewrite Hinner. simpl.
  unfold prepareForCamera. destruct lmInner as [lights inView decorated cache].
  simpl in *. subst lights. by destruct inView.
Qed.

End Registry.

(** * The properties on the scenes of [Line] *)

#[local] Existing Instance Line.osg.

(** ** Selection *)

(** A node around position 45 with radius 8 meets the lamps 4 and 5 only; a
    node with radius 43 meets the lamps 0 to 9, of which the first eight are
    kept. *)
Example cull_two_lamps :
  truncateLights (collectLights (45, 8)%Z 0 (getLights Line.crowdedInView)) = [4; 5]%Z.
Proof. vm_compute. reflexivity. Qed.

Example cull_ten_lamps :
  collectLights (45, 43)%Z 0 (getLights Line.crowdedInView)
  = [0; 1; 2; 3; 4; 5; 6; 7; 8; 9]%Z
  ∧ truncateLights (collectLights (45, 43)%Z 0 (getLights Line.crowdedInView))
    = [0; 1; 2; 3; 4; 5; 6; 7]%Z.
Proof. vm_compute. split; reflexivity. Qed.

(** The selection theorem at the registry of the forty lamps, for a node
    around position 45 with radius 8. *)
Lemma cull_selects_intersecting_lights_witness :
  ∃ lm1,
    prepareForCamera Line.sources 0%Z Line.crowded = Ok lm1
    ∧ (∀ i, i ∈ take 8 (intersectingLights (45, 8)%Z (getLights lm1)) →
            intersectsAt (45, 8)%Z (getLights lm1) i = true).
Proof.
  destruct (cull_selects_intersecting_lights (CullCallback_new 1) 1 Line.sources
              0%Z 0%Z (45, 8)%Z {[ 1 := Line.crowded ]} [] Line.crowded)
    as (lm1 & Hprepare & _ & _ & _ & _ & Hselected & _).
  - reflexivity.
  - reflexivity.
  - vm_compute. reflexivity.
  - vm_compute. discriminate.
  - exists lm1. split; [exact Hprepare|exact Hselected].
Defined.

(** ** The cache *)

Example boost_hash_collision :
  hash_LightList [8; 9]%Z = hash_LightList [6; 36]%Z.
Proof. vm_compute. reflexivity. Qed.

(** C2 fails as stated: in a registry with forty lights, the two different
    sequences [8; 9] and [6; 36] have the same Boost hash, so that the
    second call returns the state set that the first call has built for the
    lights 8 and 9. *)
Lemma different_lists_same_state_set :
  [8; 9]%Z ≠ [6; 36]%Z
  ∧ validLightList Line.sources (mLights Line.crowded) [8; 9]%Z = true
  ∧ validLightList Line.sources (mLights Line.crowded) [6; 36]%Z = true
  ∧ getLightListStateSetTwice Line.sources [8; 9]%Z [6; 36]%Z Line.crowded []
    = Ok (0, 0).
Proof.
  split; [discriminate|]. vm_compute. repeat split; reflexivity.
Qed.

(** The sequence [8; 9] twice, and then [9; 8], whose key is another one. *)
Lemma getLightListStateSet_same_and_distinct_witness :
  ∃ ptr lm1 heap1,
    getLightListStateSet Line.sources [8; 9]%Z Line.crowded [] = Ok (ptr, lm1, heap1)
    ∧ getLightListStateSet Line.sources [8; 9]%Z lm1 heap1 = Ok (ptr, lm1, heap1)
    ∧ ∃ ptr' lm3 heap3,
        getLightListStateSet Line.sources [9; 8]%Z lm1 heap1 = Ok (ptr', lm3, heap3)
        ∧ ptr' ≠ ptr.
Proof.
  destruct (getLightListStateSet_same_and_distinct Line.sources Line.crowded []
              [8; 9]%Z) as (ptr & lm1 & heap1 & Hcall & Hlater).
  - apply cacheWf_empty_cache. reflexivity.
  - vm_compute. reflexivity.
  - exists ptr, lm1, heap1. split; [exact Hcall|].
    destruct (Hlater [] lm1 heap1 eq_refl) as [Hsame Hdistinct].
    split; [exact Hsame|]. apply Hdistinct.
    + vm_compute. discriminate.
    + apply getLightListStateSet_inv in Hcall
        as [(_ & -> & _)|(_ & _ & _ & _ & _ & -> & _)]; vm_compute; reflexivity.
Defined.

(** The sequences [8; 9] and [6; 36], whose keys coincide. *)
Lemma getLightListStateSet_keyed_by_hash_witness :
  ∃ ptr lm1 heap1,
    getLightListStateSet Line.sources [8; 9]%Z Line.crowded [] = Ok (ptr, lm1, heap1)
    ∧ getLightListStateSet Line.sources [6; 36]%Z lm1 heap1 = Ok (ptr, lm1, heap1).
Proof.
  destruct (getLightListStateSet_keyed_by_hash Line.sources Line.crowded []
              [8; 9]%Z [6; 36]%Z) as (ptr & lm1 & heap1 & Hcall & Hlater).
  - vm_compute. reflexivity.
  - vm_compute. reflexivity.
  - exists ptr, lm1, heap1. split; [exact Hcall|].
    exact (proj1 (Hlater [] lm1 heap1 eq_refl)).
Defined.

(** The state set built for the lights 4 and 5: lamp 4 in slot 0 and lamp 5
    in slot 1, at their world positions. *)
Example slots_of_two_lamps :
  getLightListStateSet Line.sources [4; 5]%Z Line.crowdedInView []
  = Ok (0,
        {| mLights := mLights Line.crowdedInView; mLightsInViewSpace := true;
           mDecorated := false;
           mStateSetCache := {[ hash_LightList [4; 5]%Z := 0 ]} |},
        [ {| attributeList :=
               {[ 0%Z := {| light_num := 0%Z; light_position := 40%Z;
                            light_params := "lamp" |};
                  1%Z := {| light_num := 1%Z; light_position := 50%Z;
                            light_params := "lamp" |} ]};
             modeList := {[ 16384%Z := true; 16385%Z := true ]} |} ]).
Proof. reflexivity. Qed.

(** Slot 1 of the state set built for [4; 5] holds light number 1. *)
Lemma getLightListStateSet_slot_is_position_witness :
  ∃ ptr lm' heap' stateset,
    getLightListStateSet Line.sources [4; 5]%Z Line.crowdedInView [] = Ok (ptr, lm', heap')
    ∧ heap' !! ptr = Some stateset
    ∧ light_num <$> attributeList stateset !! 1%Z = Some 1%Z.
Proof.
  destruct (getLightListStateSet_slot_is_position Line.sources Line.crowdedInView []
              [4; 5]%Z) as (ptr & lm' & heap' & stateset & Hcall & Hheap & Hslots & _).
  - vm_compute. reflexivity.
  - vm_compute. reflexivity.
  - vm_compute. discriminate.
  - exists ptr, lm', heap', stateset. split; [exact Hcall|]. split; [exact Hheap|].
    destruct (Hslots 1 5%Z eq_refl) as (l & lightSource & _ & _ & Hattr & _).
    change (Z.of_nat 1) with 1%Z in Hattr. rewrite Hattr. reflexivity.
Defined.

(** ** Registration *)

(** The same entity registered twice gives two records. *)
Example same_entity_twice :
  mLightSource <$> getLights (addLights [(100, 0%Z); (101, 10%Z); (100, 0%Z)]
                                LightManager_new)
  = [100; 101; 100].
Proof. reflexivity. Qed.

(** ** View-space bounds *)

(** A second camera, at position 7, after the bounds are computed. *)
Lemma prepareForCamera_noop_when_computed_witness :
  prepareForCamera Line.sources 7%Z Line.crowdedInView = Ok Line.crowdedInView.
Proof.
  apply (prepareForCamera_noop_when_computed Line.sources 7%Z Line.crowdedInView).
  vm_compute. reflexivity.
Defined.

(** ** The collection hook *)

(** The first run of a callback on the path 1, 2, 3, 4. *)
Lemma collect_registers_with_addressed_manager_witness :
  CollectLightCallback_call CollectLightCallback_new 4 Line.transforms Line.nodePath
    Line.managers
  = Ok ({| collect_mLightManager := Some 1 |},
        <[1 := addLight 4 (computeLocalToWorld Line.transforms Line.nodePath)
                 LightManager_new]> Line.managers).
Proof.
  apply collect_registers_with_addressed_manager.
  - exists [], [2; 3; 4]. split; [reflexivity|]. split; [by eexists|].
    intros n Hn. by apply elem_of_nil in Hn.
  - reflexivity.
Defined.

(** C4 fails as stated. On the path 1, 2, 3, 4 the registry nearest to the
    light entity 4 is 3, but the hook registers the entity with the registry
    1 at the root, and 3 gets no light. At a later run the callback does not
    look for a registry at all: with the entity moved below registry 3 only,
    it still registers with the cached registry 1. *)
Lemma collect_registers_with_outermost_not_nearest :
  let registered := addLight 4 (computeLocalToWorld Line.transforms Line.nodePath)
                      LightManager_new in
  let managers' := <[1 := registered]> Line.managers in
  nearestManager Line.managers Line.nodePath 3
  ∧ CollectLightCallback_call CollectLightCallback_new 4 Line.transforms
      Line.nodePath Line.managers
    = Ok ({| collect_mLightManager := Some 1 |}, managers')
  ∧ managers' !! 3 = Some LightManager_new
  ∧ CollectLightCallback_call {| collect_mLightManager := Some 1 |} 4
      Line.transforms [3; 4] managers'
    = Ok ({| collect_mLightManager := Some 1 |},
          <[1 := addLight 4 (computeLocalToWorld Line.transforms [3; 4]) registered]>
            managers').
Proof.
  intros registered managers'. split; [|split; [|split]].
  - exists [1; 2], [4]. split; [reflexivity|]. split; [by eexists|].
    intros n ->%list_elem_of_singleton. reflexivity.
  - reflexivity.
  - reflexivity.
  - reflexivity.
Qed.

(** The first run of a callback on the path 5, 4, without a registry, and
    on the path 1, 2, 3, 4. *)
Lemma collect_throws_without_manager_witness :
  CollectLightCallback_call CollectLightCallback_new 4 Line.transforms [5; 4]
    Line.managers = Throw "can't find parent LightManager"
  ∧ ∃ cb' managers',
      CollectLightCallback_call CollectLightCallback_new 4 Line.transforms
        Line.nodePath Line.managers = Ok (cb', managers').
Proof.
  split.
  - apply (collect_throws_without_manager (H := Line.osg) CollectLightCallback_new 4
             Line.transforms [5; 4] Line.managers eq_refl).
    intros n [->|[->|[]%elem_of_nil]%elem_of_cons]%elem_of_cons; reflexivity.
  - apply (collect_throws_without_manager (H := Line.osg) CollectLightCallback_new 4
             Line.transforms Line.nodePath Line.managers eq_refl).
    exists 1. split; [apply list_elem_of_here|by eexists].
Defined.

(** C8 fails as stated. A callback that has cached registry 1 at an earlier
    run does not look at the node path: run on the path 5, 4, on which there
    is no registry, it throws nothing and registers the entity with 1. *)
Lemma collect_cached_does_not_throw :
  (∀ n, n ∈ [5; 4] → Line.managers !! n = None)
  ∧ CollectLightCallback_call {| collect_mLightManager := Some 1 |} 4
      Line.transforms [5; 4] Line.managers
    = Ok ({| collect_mLightManager := Some 1 |},
          <[1 := addLight 4 9%Z LightManager_new]> Line.managers).
Proof.
  split.
  - intros n [->|[->|[]%elem_of_nil]%elem_of_cons]%elem_of_cons; reflexivity.
  - reflexivity.
Qed.

(** ** The decoration pass *)

(** The pass gives the group 2 one callback for each of its two geodes, and
    the registry 1 and the group 6 one callback each. *)
Example decorate_scene :
  decorateGeodes 1 Line.parents Line.graph ∅
  = {[ 1 := [CullCallback_new 1];
       2 := [CullCallback_new 1; CullCallback_new 1];
       6 := [CullCallback_new 1] ]}.
Proof. vm_compute. reflexivity. Qed.

(** Three frames of a new registry 1 on the same scene. *)
Lemma decoration_runs_once_on_first_update_witness :
  (updateFrames 1 [(Line.parents, Line.graph); (Line.parents, Line.graph);
                   (Line.parents, Line.graph)] LightManager_new ∅).2
  = decorateGeodes 1 Line.parents Line.graph ∅.
Proof.
  destruct (decoration_runs_once_on_first_update 1 Line.parents Line.graph
              [(Line.parents, Line.graph); (Line.parents, Line.graph)]
              LightManager_new ∅ eq_refl) as (_ & _ & Hcallbacks & _).
  exact Hcallbacks.
Defined.

(** C9 fails as stated. Registry 9 is a copy of registry 1 made after the
    first update of 1: its flag is set from the start, so its first update,
    and every later one, leaves the cull callbacks as they are, where a run
    of the pass would have given callbacks of registry 9 to the nodes 2, 6
    and 1. *)
Lemma copied_registry_is_never_decorated :
  let original := update 1 Line.parents Line.graph LightManager_new ∅ in
  let copied := LightManager_copy original.1 in
  mDecorated copied = true
  ∧ (update 9 Line.parentsAfterCopy Line.copiedGraph copied original.2).2 = original.2
  ∧ decorateGeodes 9 Line.parentsAfterCopy Line.copiedGraph original.2 !! 2
    = Some [CullCallback_new 1; CullCallback_new 1; CullCallback_new 9; CullCallback_new 9]
  ∧ original.2 !! 2 = Some [CullCallback_new 1; CullCallback_new 1].
Proof. vm_compute. repeat split; reflexivity. Qed.

(** * The further properties on the scenes of [Line] *)

(** Registry 1 of the scene with two registries has no light. *)
Lemma cull_without_lights_only_traverses_witness :
  CullCallback_call (CullCallback_new 1) Line.sources 0%Z 0%Z (45, 8)%Z Line.managers []
  = Ok (TraverseOnly,
        <[1 := {| mLights := []; mLightsInViewSpace := true; mDecorated := false;
                  mStateSetCache := ∅ |}]> Line.managers,
        []).
Proof.
  apply (cull_without_lights_only_traverses (CullCallback_new 1) 1 Line.sources
           0%Z 0%Z (45, 8)%Z Line.managers [] LightManager_new); reflexivity.
Defined.

(** A node of radius 43 around position 45 meets ten lamps. *)
Lemma cull_state_set_within_capacity_witness :
  ∃ lm2 stateset,
    CullCallback_call (CullCallback_new 1) Line.sources 0%Z 0%Z (45, 43)%Z
      {[ 1 := Line.crowded ]} []
    = Ok (PushTraversePop 0, <[1 := lm2]> {[ 1 := Line.crowded ]}, [stateset])
    ∧ ∀ slot, is_Some (attributeList stateset !! slot) → (0 ≤ slot < 8)%Z.
Proof.
  destruct (cull_state_set_within_capacity (CullCallback_new 1) 1 Line.sources
              0%Z 0%Z (45, 43)%Z {[ 1 := Line.crowded ]} [] Line.crowded
              Line.crowdedInView)
    as (lm2 & stateset & Hcall & Hlen & Hslots & _).
  - reflexivity.
  - reflexivity.
  - reflexivity.
  - vm_compute. reflexivity.
  - vm_compute. discriminate.
  - vm_compute. discriminate.
  - vm_compute. reflexivity.
  - exists lm2, stateset. split; [exact Hcall|].
    intros slot Hslot. apply Hslots in Hslot. lia.
Defined.


(** The calls of [Line.frameOps] after a state set for the lights 1 and 2
    has been built: that state set is still cached and still at address 0. *)
Lemma frame_keeps_cache_and_state_sets_witness :
  ∃ lm' heap',
    runFrameOps Line.sources Line.frameOps Line.fewAfterCall = Ok (lm', heap')
    ∧ mStateSetCache lm' !! hash_LightList [1; 2]%Z = Some 0
    ∧ heap' !! 0 = Line.fewAfterCall.2 !! 0.
Proof.
  eexists _, _. split; [reflexivity|].
  destruct (frame_keeps_cache_and_state_sets Line.sources Line.frameOps
              Line.fewAfterCall.1 _ Line.fewAfterCall.2 _ eq_refl)
    as [Hcache Hheap].
  split.
  - apply Hcache. reflexivity.
  - apply Hheap. reflexivity.
Defined.

(** The calls of [Line.frameOps] build two state sets, for two keys. *)
Lemma frame_allocates_one_state_set_per_key_witness :
  ∃ lm' heap',
    runFrameOps Line.sources Line.frameOps (Line.few, []) = Ok (lm', heap')
    ∧ size (mStateSetCache lm') + 0 = 0 + length heap'.
Proof.
  eexists _, _. split; [reflexivity|].
  exact (proj1 (frame_allocates_one_state_set_per_key Line.sources Line.frameOps
                  Line.few _ [] _ eq_refl)).
Defined.

(** There is no lamp 40. *)
Lemma getLightListStateSet_unchecked_index_witness :
  getLightListStateSet Line.sources [4; 40]%Z Line.crowded [] = Undefined.
Proof.
  apply getLightListStateSet_unchecked_index.
  - vm_compute. reflexivity.
  - vm_compute. reflexivity.
Defined.

(** A lamp registered at position 45 after the bounds are computed is not
    collected for the node around 45. *)
Lemma late_registration_is_not_collected_witness :
  collectLights (45, 8)%Z 0 (getLights (addLights [(100, 45%Z)] Line.crowdedInView))
  = collectLights (45, 8)%Z 0 (getLights Line.crowdedInView).
Proof.
  apply (late_registration_is_not_collected Line.sources 0%Z [(100, 45%Z)]
           Line.crowdedInView (45, 8)%Z).
  - intros sphere. reflexivity.
  - vm_compute. reflexivity.
Defined.

(** A frame of registry 1 that registers a lamp and builds a state set for
    it, and then the reset of the next frame. *)
Lemma update_forgets_frame_witness :
  ∃ lm' heap',
    runFrameOps Line.sources Line.smallFrame
      ((update 1 Line.parents Line.graph LightManager_new ∅).1, []) = Ok (lm', heap')
    ∧ update 1 Line.parents Line.graph lm' ∅
      = ((update 1 Line.parents Line.graph LightManager_new ∅).1, ∅).
Proof.
  eexists _, _. split; [reflexivity|].
  eapply (update_forgets_frame Line.sources 1 Line.parents Line.parents Line.graph
            Line.graph Line.smallFrame LightManager_new _ []).
  reflexivity.
Defined.

(** The first run on the path 1, 2, 3, 4 and the two runs of
    [Line.laterRuns]: three records in registry 1. *)
Lemma collect_runs_register_with_one_manager_witness :
  collectRuns CollectLightCallback_new
    ((4, Line.transforms, Line.nodePath) :: Line.laterRuns) Line.managers
  = Ok ({| collect_mLightManager := Some 1 |},
        <[1 := addLights (runRegistrations
                            ((4, Line.transforms, Line.nodePath) :: Line.laterRuns))
                 LightManager_new]> Line.managers).
Proof.
  apply (collect_runs_register_with_one_manager (H := Line.osg)
           CollectLightCallback_new 4 Line.transforms Line.nodePath Line.laterRuns
           Line.managers 1 LightManager_new).
  - exists [], [2; 3; 4]. split; [reflexivity|]. split; [by eexists|].
    intros n Hn. by apply elem_of_nil in Hn.
  - reflexivity.
Defined.

(** The bounds of the three lamps for a camera at position 3: light 1 gets
    the sphere of radius 2 around 13. *)
Lemma prepareForCamera_computes_bounds_witness :
  ∃ lm1,
    prepareForCamera Line.sources 3%Z Line.few = Ok lm1
    ∧ mViewBound <$> mLights lm1 !! 1 = Some (13, 2)%Z.
Proof.
  destruct (prepareForCamera_computes_bounds Line.sources 3%Z Line.few)
    as (lm1 & Hprepare & _ & _ & _ & Hbounds).
  - reflexivity.
  - vm_compute. reflexivity.
  - exists lm1. split; [exact Hprepare|].
    destruct (Hbounds 1 _ eq_refl) as (lightSource & Hsource & Hrecord).
    change (Some Line.lamp = Some lightSource) in Hsource.
    injection Hsource as <-. rewrite Hrecord. reflexivity.
Defined.


(** Registry 3 of the scene with two registries is as before after a run of
    a cull callback of registry 1. *)
Lemma cull_touches_only_its_registry_witness :
  ∃ action managers' heap',
    CullCallback_call (CullCallback_new 1) Line.sources 0%Z 0%Z (45, 8)%Z
      Line.managers [] = Ok (action, managers', heap')
    ∧ managers' !! 3 = Line.managers !! 3.
Proof.
  eexists _, _, _. split; [reflexivity|].
  apply (cull_touches_only_its_registry (CullCallback_new 1) 1 Line.sources 0%Z 0%Z
           (45, 8)%Z Line.managers _ [] _ _ eq_refl eq_refl).
  discriminate.
Defined.

(** The light entity 4 below the registries 1 and 3, and then a cull
    callback of registry 3. *)
Lemma nested_registry_lights_nothing_witness :
  ∃ managers' managers'',
    CollectLightCallback_call CollectLightCallback_new 4 Line.transforms Line.nodePath
      Line.managers = Ok ({| collect_mLightManager := Some 1 |}, managers')
    ∧ CullCallback_call (CullCallback_new 3) Line.sources 0%Z 0%Z (45, 8)%Z managers' []
      = Ok (TraverseOnly, managers'', []).
Proof.
  destruct (nested_registry_lights_nothing (H := Line.osg) (CullCallback_new 3) 4
              Line.transforms
              Line.nodePath Line.managers 1 3 LightManager_new LightManager_new
              Line.sources 0%Z 0%Z (45, 8)%Z [])
    as (managers' & Hcollect & _ & managers'' & Hcull & _).
  - exists [], [2; 3; 4]. split; [reflexivity|]. split; [by eexists|].
    intros n Hn. by apply elem_of_nil in Hn.
  - discriminate.
  - reflexivity.
  - reflexivity.
  - reflexivity.
  - reflexivity.
  - exists managers', managers''. split; [exact Hcollect|exact Hcull].
Defined.

(** Two lights applied under a model-view matrix of 5 with the initial view
    matrix 1: both are handed over under 1, and the model-view matrix is 5
    afterwards. *)
Example apply_two_lights :
  let light n := {| light_num := n; light_position := 40%Z; light_params := "lamp" |} in
  let state := {| modelViewMatrix := 5%Z; initialViewMatrix := 1%Z;
                  appliedLights := ∅; globalDefaultAttributes := ∅ |} in
  modelViewMatrix (applyLights [light 0%Z; light 1%Z] state) = 5%Z
  ∧ appliedLights (applyLights [light 0%Z; light 1%Z] state)
    = {[ 0%Z := (light 0%Z, 1%Z); 1%Z := (light 1%Z, 1%Z) ]}.
Proof. split; reflexivity. Qed.
